(** * RCU no wait: a shallow embedding of [rcu_nowait.h]

    The header defines two classes in namespace [Base]:

    - [RcuDataItem], a base class that carries an atomic reference counter;
    - [RcuDataNoWait<T, BUFSZ>], a ring of [BUFSZ] pointers to [T] together
      with an atomic head index.

    Objects live in a store indexed by addresses; the ring holds addresses,
    as the source holds [T*].  Every atomic access of the source is one step
    of a small machine, so that the reader's retry loop and the publisher's
    scan loop can be interleaved; the sequential behaviour of a member
    function is that machine run alone. *)

From stdpp Require Import base tactics numbers list functions.
From Stdlib Require Import ZArith Lia.

Local Open Scope Z_scope.

(** ** Machine integers

    [std::atomic_long] and [long] are 64 bits wide (LP64), [size_t] is an
    unsigned 64-bit integer.  Atomic [fetch_add]/[fetch_sub] on a signed type
    wrap around in two's complement. *)

Definition LONG_MIN : Z := - 2 ^ 63.
Definition LONG_MAX : Z := 2 ^ 63 - 1.
Definition SIZE_MAX : Z := 2 ^ 64 - 1.

(** Reduction of an integer to the range of [long]. *)
Definition wrap_long (z : Z) : Z := (z + 2 ^ 63) mod 2 ^ 64 - 2 ^ 63.

(** Conversion to [size_t] (the usual arithmetic conversion that
    [curHead & (BUFSZ-1)] applies to its signed operand). *)
Definition to_size_t (z : Z) : Z := z mod 2 ^ 64.

Definition in_long (z : Z) : Prop := LONG_MIN <= z <= LONG_MAX.

(** ** class RcuDataItem *)

Record RcuDataItem := { m_refCounter : Z }.

(** [RcuDataItem() = default;] with [m_refCounter{}]. *)
Definition RcuDataItem_default : RcuDataItem := {| m_refCounter := 0 |}.

(** [RcuDataItem(const RcuDataItem &rhs) {}]: the member is not named in the
    initialiser list, so its default member initialiser [{}] applies. *)
Definition RcuDataItem_copy (rhs : RcuDataItem) : RcuDataItem :=
  {| m_refCounter := 0 |}.

(** [RcuDataItem &operator=(const RcuDataItem &rhs) { return *this; }] *)
Definition RcuDataItem_assign (this rhs : RcuDataItem) : RcuDataItem := this.

(** [m_refCounter.fetch_sub(1, release)] *)
Definition release (this : RcuDataItem) : RcuDataItem :=
  {| m_refCounter := wrap_long (m_refCounter this - 1) |}.

(** [m_refCounter.fetch_add(1, release)] *)
Definition acquire (this : RcuDataItem) : RcuDataItem :=
  {| m_refCounter := wrap_long (m_refCounter this + 1) |}.

(** [m_refCounter.load(acquire)] *)
Definition queryRefCount (this : RcuDataItem) : Z := m_refCounter this.

(** A call made on an item through its public counter interface. *)
Inductive item_call := CallAcquire | CallRelease.

Definition do_call (c : item_call) (this : RcuDataItem) : RcuDataItem :=
  match c with
  | CallAcquire => acquire this
  | CallRelease => release this
  end.

(** The calls of a list are made from left to right. *)
Definition do_calls (cs : list item_call) (this : RcuDataItem) : RcuDataItem :=
  fold_left (fun it c => do_call c it) cs this.

Definition is_acquire (c : item_call) : bool :=
  match c with CallAcquire => true | CallRelease => false end.

Definition is_release (c : item_call) : bool :=
  match c with CallAcquire => false | CallRelease => true end.

Definition acquires (cs : list item_call) : Z :=
  Z.of_nat (length (List.filter is_acquire cs)).

Definition releases (cs : list item_call) : Z :=
  Z.of_nat (length (List.filter is_release cs)).


(** ** The published type and the store

    [T] is the template parameter of [RcuDataNoWait]: a class derived from
    [RcuDataItem] that adds the published payload.  Its copy operations are
    the implicit ones, which call those of the base class. *)

Abbreviation ptr := nat (only parsing).

Section Ring.

Context {V : Type}.

Record T := { base : RcuDataItem; value : V }.

(** [T(const T &rhs)], implicitly defined. *)
Definition T_copy (rhs : T) : T :=
  {| base := RcuDataItem_copy (base rhs); value := value rhs |}.

(** [T &operator=(const T &rhs)], implicitly defined. *)
Definition T_assign (this rhs : T) : T :=
  {| base := RcuDataItem_assign (base this) (base rhs); value := value rhs |}.

(** The objects that pointers of type [T*] point to. *)
Definition store := ptr -> T.

(** [p->acquire()], [p->release()] and [p->queryRefCount()]. *)
Definition acquire_at (p : ptr) (h : store) : store :=
  <[p := {| base := acquire (base (h p)); value := value (h p) |}]> h.

Definition release_at (p : ptr) (h : store) : store :=
  <[p := {| base := release (base (h p)); value := value (h p) |}]> h.

Definition refCount_at (p : ptr) (h : store) : Z := queryRefCount (base (h p)).

(** [*p = rhs] *)
Definition assign_at (p : ptr) (rhs : T) (h : store) : store :=
  <[p := T_assign (h p) rhs]> h.

(** ** class RcuDataNoWait<T, BUFSZ> *)

Variable BUFSZ : Z.

(** [std::array<T*,BUFSZ> m_data; std::atomic_long m_head{};] *)
Record RcuDataNoWait := { m_data : list ptr; m_head : Z }.

(** The ring together with the objects its slots point to. *)
Record Memory := { heap : store; rcu : RcuDataNoWait }.

(** [static_assert(BUFSZ != 0 && (BUFSZ & (BUFSZ - 1)) == 0, ...)], evaluated
    in [size_t]. *)
Definition static_assert_BUFSZ : bool :=
  negb (BUFSZ =? 0) && (Z.land BUFSZ (to_size_t (BUFSZ - 1)) =? 0).

(** The index expression [pos & (BUFSZ-1)] for a [long] position. *)
Definition slot (pos : Z) : nat :=
  Z.to_nat (Z.land (to_size_t pos) (to_size_t (BUFSZ - 1))).

(** What instantiating the class and running its constructor gives. *)
Inductive instantiation :=
  | StaticAssertFailure
  | WritesPastEnd
  | Constructed (r : RcuDataNoWait).

(** [RcuDataNoWait(first, last) { std::copy(first, last, std::begin(m_data)); }]

    [uninit] is the indeterminate content of the default-initialised array;
    [range] is the sequence [first, last).  [std::copy] overwrites the front
    of the array; a range longer than the array writes past its end. *)
Definition RcuDataNoWait_ctor (uninit range : list ptr) : instantiation :=
  if negb static_assert_BUFSZ then StaticAssertFailure
  else if BUFSZ <? Z.of_nat (length range) then WritesPastEnd
  else Constructed {| m_data := range ++ drop (length range) uninit;
                      m_head := 0 |}.

(** [std::swap(m_data[i], m_data[j])] *)
Definition swap_slots (i j : nat) (l : list ptr) : list ptr :=
  <[i := l !!! j]> (<[j := l !!! i]> l).

(** *** read()

    The local state of a thread inside [read()], one constructor per atomic
    access of the body; [uptr] is the [std::unique_ptr] named [ptr] in the
    source ([None] is [nullptr]). *)
Inductive reader :=
  | ReadEntry
  | ReadFetch (curHead : Z) (uptr : option ptr)
  | ReadAcquire (curHead : Z) (uptr : option ptr) (rawP : ptr)
  | ReadReset (curHead : Z) (uptr : option ptr) (rawP : ptr)
  | ReadCheck (oldHead : Z) (uptr : option ptr)
  | ReadReturned (uptr : option ptr)
  | HandleDestroyed.

(** The deleter [relFunc] runs on a non-null pointer only. *)
Definition run_deleter (u : option ptr) (h : store) : store :=
  match u with
  | Some old => release_at old h
  | None => h
  end.

Definition with_heap (m : Memory) (h : store) : Memory :=
  {| heap := h; rcu := rcu m |}.

Definition reader_step (m : Memory) (r : reader) : Memory * reader :=
  match r with
  | ReadEntry =>
      (* auto curHead{m_head.load(acquire)}; *)
      (m, ReadFetch (m_head (rcu m)) None)
  | ReadFetch curHead u =>
      (* T *rawP{m_data[curHead&(BUFSZ-1)]}; *)
      (m, ReadAcquire curHead u (m_data (rcu m) !!! slot curHead))
  | ReadAcquire curHead u rawP =>
      (* rawP->acquire(); *)
      (with_heap m (acquire_at rawP (heap m)), ReadReset curHead u rawP)
  | ReadReset curHead u rawP =>
      (* ptr.reset(rawP); oldHead = curHead; *)
      (with_heap m (run_deleter u (heap m)), ReadCheck curHead (Some rawP))
  | ReadCheck oldHead u =>
      (* while ((curHead = m_head.load(acquire)) != oldHead); return ptr; *)
      let curHead := m_head (rcu m) in
      if curHead =? oldHead then (m, ReadReturned u)
      else (m, ReadFetch curHead u)
  | ReadReturned u =>
      (* the caller's handle goes out of scope *)
      (with_heap m (run_deleter u (heap m)), HandleDestroyed)
  | HandleDestroyed => (m, HandleDestroyed)
  end.

(** [read()] run without interference: the handle and the memory at return. *)
Fixpoint read_run (fuel : nat) (m : Memory) (r : reader)
  : option (option ptr * Memory) :=
  match r with
  | ReadReturned u => Some (u, m)
  | HandleDestroyed => None
  | _ =>
      match fuel with
      | O => None
      | S fuel' =>
          let '(m', r') := reader_step m r in read_run fuel' m' r'
      end
  end.

Definition read (fuel : nat) (m : Memory) : option (option ptr * Memory) :=
  read_run fuel m ReadEntry.

(** *** initUpdate()

    The local state of the publisher: [first] is kept as the index it points
    at, and [it] is always [&m_data[nextPos&(BUFSZ-1)]].  The increment of
    the local [long nextPos] is taken modulo 2^64, as the hardware does. *)
Inductive publisher :=
  | PubIdle
  | InitFirst (nextPos : Z)
  | InitScan (first : nat) (nextPos : Z)
  | InitReturned (p : ptr).

(** [m_data[i]->queryRefCount()] *)
Definition slot_refCount (m : Memory) (i : nat) : Z :=
  refCount_at (m_data (rcu m) !!! i) (heap m).

(** The memory after [std::swap(m_data[i], m_data[j])]: two pointers trade
    places, the objects stay where they are. *)
Definition swap_in (i j : nat) (m : Memory) : Memory :=
  {| heap := heap m;
     rcu := {| m_data := swap_slots i j (m_data (rcu m));
               m_head := m_head (rcu m) |} |}.

Definition initUpdate_step (m : Memory) (pc : publisher) : Memory * publisher :=
  match pc with
  | PubIdle =>
      (* auto nextPos{m_head.load(relaxed)};
         auto *first{&m_data[(++nextPos)&(BUFSZ-1)]}; *)
      (m, InitFirst (wrap_long (m_head (rcu m) + 1)))
  | InitFirst nextPos =>
      let first := slot nextPos in
      (* if (( *first)->queryRefCount() != 0) *)
      if slot_refCount m first =? 0
      then (* return *first; *)
        (m, InitReturned (m_data (rcu m) !!! first))
      else (* auto *it{&m_data[(++nextPos)&(BUFSZ-1)]}; *)
        (m, InitScan first (wrap_long (nextPos + 1)))
  | InitScan first nextPos =>
      let it := slot nextPos in
      (* while (( *it)->queryRefCount() != 0) *)
      if slot_refCount m it =? 0
      then (* std::swap( *first, *it); return *first; *)
        let m' := swap_in first it m in
        (m', InitReturned (m_data (rcu m') !!! first))
      else (* it = &m_data[(++nextPos)&(BUFSZ-1)]; *)
        (m, InitScan first (wrap_long (nextPos + 1)))
  | InitReturned p => (m, InitReturned p)
  end.

(** The publisher continues from [pc] with the reference counts left alone:
    the returned pointer and the memory at return, or [None] when [fuel]
    steps do not reach the return. *)
Fixpoint initUpdate_run (fuel : nat) (m : Memory) (pc : publisher)
  : option (ptr * Memory) :=
  match pc with
  | InitReturned p => Some (p, m)
  | _ =>
      match fuel with
      | O => None
      | S fuel' =>
          let '(m', pc') := initUpdate_step m pc in initUpdate_run fuel' m' pc'
      end
  end.

Definition initUpdate (fuel : nat) (m : Memory) : option (ptr * Memory) :=
  initUpdate_run fuel m PubIdle.

(** *** publisherRead() and commitUpdate() *)

(** [return m_data[curHead&(BUFSZ-1)];] *)
Definition publisherRead (m : Memory) : ptr :=
  m_data (rcu m) !!! slot (m_head (rcu m)).

(** [m_head.fetch_add(1, release);] *)
Definition commitUpdate (m : Memory) : Memory :=
  {| heap := heap m;
     rcu := {| m_data := m_data (rcu m);
               m_head := wrap_long (m_head (rcu m) + 1) |} |}.

(** *** The publisher's update cycle

    The order in which the publisher uses the three operations: take the
    current value from [publisherRead()], obtain a slot from [initUpdate()],
    assign the new value to it, then [commitUpdate()].  [mutate] computes
    the new value from the current one. *)
Definition update_cycle (fuel : nat) (mutate : V -> V) (m : Memory)
  : option Memory :=
  let current := value (heap m (publisherRead m)) in
  match initUpdate fuel m with
  | None => None
  | Some (p, m1) =>
      let staged := {| base := RcuDataItem_default; value := mutate current |} in
      Some (commitUpdate (with_heap m1 (assign_at p staged (heap m1))))
  end.

Fixpoint update_cycles (fuel : nat) (mutations : list (V -> V)) (m : Memory)
  : option Memory :=
  match mutations with
  | [] => Some m
  | f :: rest =>
      match update_cycle fuel f m with
      | None => None
      | Some m' => update_cycles fuel rest m'
      end
  end.

(** *** Threads

    One publisher and a pool of reader threads over one memory.  An event
    names who performs its next atomic action. *)
Record System := { mem : Memory; pub : publisher; threads : list reader }.

Inductive event :=
  | EvReader (tid : nat)
  | EvInitUpdate
  | EvAssign (v : V)
  | EvCommit.

Definition system_step (s : System) (e : event) : System :=
  match e with
  | EvReader tid =>
      match threads s !! tid with
      | Some r =>
          let '(m', r') := reader_step (mem s) r in
          {| mem := m'; pub := pub s; threads := <[tid := r']> (threads s) |}
      | None => s
      end
  | EvInitUpdate =>
      (* a call of initUpdate(), or the next action inside the running call *)
      let pc := match pub s with InitReturned _ => PubIdle | pc => pc end in
      let '(m', pc') := initUpdate_step (mem s) pc in
      {| mem := m'; pub := pc'; threads := threads s |}
  | EvAssign v =>
      (* the publisher writes into the slot it was given *)
      match pub s with
      | InitReturned p =>
          let staged := {| base := RcuDataItem_default; value := v |} in
          {| mem := with_heap (mem s) (assign_at p staged (heap (mem s)));
             pub := pub s; threads := threads s |}
      | _ => s
      end
  | EvCommit =>
      match pub s with
      | PubIdle | InitReturned _ =>
          {| mem := commitUpdate (mem s); pub := PubIdle; threads := threads s |}
      | _ => s
      end
  end.

Definition system_run (es : list event) (s : System) : System :=
  fold_left system_step es s.

(** The references a thread has taken and not yet given back. *)
Definition owned (r : reader) : list ptr :=
  match r with
  | ReadEntry => []
  | ReadFetch _ u => option_list u
  | ReadAcquire _ u _ => option_list u
  | ReadReset _ u rawP => rawP :: option_list u
  | ReadCheck _ u => option_list u
  | ReadReturned u => option_list u
  | HandleDestroyed => []
  end.

Definition references (p : ptr) (ts : list reader) : nat :=
  length (List.filter (Nat.eqb p) (concat (map owned ts))).

(** Every count equals the number of references the threads hold. *)
Definition accounted (s : System) : Prop :=
  forall p, refCount_at p (heap (mem s))
            = Z.of_nat (references p (threads s)).

(** *** Well-formed instances *)

Definition is_size_t (z : Z) : Prop := 0 <= z <= SIZE_MAX.

(** The class instantiates and the array has [BUFSZ] entries. *)
Definition wf (r : RcuDataNoWait) : Prop :=
  is_size_t BUFSZ /\ static_assert_BUFSZ = true
  /\ Z.of_nat (length (m_data r)) = BUFSZ.

(** Some ring slot points to an object whose count is zero. *)
Definition has_free_slot (m : Memory) : Prop :=
  exists i, (i < length (m_data (rcu m)))%nat /\ slot_refCount m i = 0.

End Ring.

Arguments T : clear implicits.
Arguments store : clear implicits.
Arguments Memory : clear implicits.
Arguments System : clear implicits.
Arguments event : clear implicits.

(** ** Example memories

    Objects at the addresses of [busy] have count one, all others count zero;
    the payload of the object at address [p] is [p]. *)
Definition example_store (busy : list ptr) : store Z :=
  fun p => {| base := {| m_refCounter := if existsb (Nat.eqb p) busy then 1 else 0 |};
              value := Z.of_nat p |}.

Definition example_memory (busy data : list ptr) (head : Z) : Memory Z :=
  {| heap := example_store busy;
     rcu := {| m_data := data; m_head := head |} |}.

(** A schedule for two readers and the publisher over a ring of four: the
    first reader takes its candidate, the publisher completes an update, the
    reader finds the head changed and goes round its loop a second time;
    then the second reader reads; both handles are destroyed. *)
Definition example_schedule : list (event Z) :=
  [EvReader 0; EvReader 0; EvReader 0]
  ++ [EvInitUpdate; EvInitUpdate; EvAssign 42; EvCommit]
  ++ [EvReader 0; EvReader 0; EvReader 0; EvReader 0; EvReader 0; EvReader 0]
  ++ [EvReader 1; EvReader 1; EvReader 1; EvReader 1; EvReader 1; EvReader 1]
  ++ [EvReader 0; EvReader 1].

(** A schedule for two readers and the publisher over a ring of four that
    leaves every slot but the published one referenced: the first reader is
    overtaken twice and holds its old and its new candidate at once, the
    second reader is overtaken once. *)
Definition pinning_schedule : list (event Z) :=
  [EvReader 0; EvReader 0; EvReader 0; EvReader 0]
  ++ [EvInitUpdate; EvInitUpdate; EvAssign 1; EvCommit]
  ++ [EvReader 0; EvReader 0]
  ++ [EvInitUpdate; EvInitUpdate; EvAssign 2; EvCommit]
  ++ [EvReader 0]
  ++ [EvReader 1; EvReader 1; EvReader 1]
  ++ [EvInitUpdate; EvInitUpdate; EvAssign 3; EvCommit].

(** After [pinning_schedule]: the second reader goes round its loop and
    fetches the pointer of the published slot, the publisher's scan selects
    that slot, and only then does the reader take its reference and return. *)
Definition late_handle_schedule : list (event Z) :=
  pinning_schedule
  ++ [EvReader 1; EvReader 1; EvReader 1]
  ++ [EvInitUpdate; EvInitUpdate; EvInitUpdate; EvInitUpdate; EvInitUpdate]
  ++ [EvReader 1; EvReader 1; EvReader 1].

(** ** Schedules and handles: auxiliary notions

    The number of atomic actions that thread [tid] performs in a schedule,
    and the number of [commitUpdate()] calls in it. *)
Definition is_reader_event {V : Type} (tid : nat) (e : event V) : bool :=
  match e with
  | EvReader t => Nat.eqb t tid
  | _ => false
  end.

Definition is_commit {V : Type} (e : event V) : bool :=
  match e with
  | EvCommit => true
  | _ => false
  end.

Definition reader_actions {V : Type} (tid : nat) (es : list (event V)) : nat :=
  length (List.filter (is_reader_event tid) es).

Definition commits {V : Type} (es : list (event V)) : nat :=
  length (List.filter is_commit es).

(** The atomic actions a thread inside [read()] still has to perform before
    the call returns, provided the head stays at [head]: a thread whose
    snapshot differs from the head goes round the loop once more. *)
Definition remaining (head : Z) (r : reader) : nat :=
  match r with
  | ReadEntry => 5
  | ReadFetch curHead _ => if curHead =? head then 4 else 8
  | ReadAcquire curHead _ _ => if curHead =? head then 3 else 7
  | ReadReset curHead _ _ => if curHead =? head then 2 else 6
  | ReadCheck oldHead _ => if oldHead =? head then 1 else 5
  | ReadReturned _ => 0
  | HandleDestroyed => 0
  end.

(** The destructor of the handle that [read()] returned, run by the caller. *)
Definition destroy_handle {V : Type} (u : option ptr) (m : Memory V) : Memory V :=
  with_heap m (run_deleter u (heap m)).

(** [read()] has finished in this thread state. *)
Definition has_returned (r : reader) : bool :=
  match r with
  | ReadReturned _ | HandleDestroyed => true
  | _ => false
  end.

(** A publisher event: any event that is not an action of a reader. *)
Definition is_publisher_event {V : Type} (e : event V) : bool :=
  match e with
  | EvReader _ => false
  | _ => true
  end.

(** Inside the scan of [initUpdate()], [first] points into the array. *)
Definition first_in_range {V : Type} (s : System V) : Prop :=
  match pub s with
  | InitScan first _ => (first < length (m_data (rcu (mem s))))%nat
  | _ => True
  end.

(** After [ptr.reset(rawP)] the [unique_ptr] is not null. *)
Definition handle_nonnull (r : reader) : Prop :=
  match r with
  | ReadCheck _ None => False
  | ReadReturned None => False
  | _ => True
  end.

(** The atomic actions thread [tid] still has to perform inside [read()] in
    state [s], if the head stays as it is. *)
Definition actions_left {V : Type} (tid : nat) (s : System V) : nat :=
  match threads s !! tid with
  | Some r => remaining (m_head (rcu (mem s))) r
  | None => 0%nat
  end.

(** Thread [tid], if there is one, is not inside [read()] any more. *)
Definition read_finished {V : Type} (tid : nat) (s : System V) : Prop :=
  match threads s !! tid with
  | Some r => has_returned r = true
  | None => True
  end.

(** Every pointer that a thread has fetched or holds is in [data]. *)
Definition points_into (data : list ptr) (r : reader) : Prop :=
  match r with
  | ReadEntry | HandleDestroyed => True
  | ReadFetch _ u | ReadCheck _ u | ReadReturned u =>
      forall p, u = Some p -> p ∈ data
  | ReadAcquire _ u rawP | ReadReset _ u rawP =>
      rawP ∈ data /\ forall p, u = Some p -> p ∈ data
  end.

(** ** Facts about the machine integers *)

Lemma wrap_long_id z : in_long z -> wrap_long z = z.
Proof.
  unfold in_long, LONG_MIN, LONG_MAX, wrap_long. intros Hz.
  rewrite Z.mod_small; lia.
Qed.

Lemma wrap_long_range z : in_long (wrap_long z).
Proof.
  unfold in_long, LONG_MIN, LONG_MAX, wrap_long.
  pose proof (Z.mod_pos_bound (z + 2 ^ 63) (2 ^ 64)). lia.
Qed.

Lemma wrap_long_add_l a b : wrap_long (wrap_long a + b) = wrap_long (a + b).
Proof.
  unfold wrap_long. f_equal.
  replace ((a + 2 ^ 63) mod 2 ^ 64 - 2 ^ 63 + b + 2 ^ 63)
    with ((a + 2 ^ 63) mod 2 ^ 64 + b) by lia.
  replace (a + b + 2 ^ 63) with ((a + 2 ^ 63) + b) by lia.
  apply Zplus_mod_idemp_l.
Qed.

Lemma wrap_long_congr z : to_size_t (wrap_long z) = to_size_t z.
Proof.
  unfold to_size_t, wrap_long.
  rewrite Zminus_mod_idemp_l. f_equal. lia.
Qed.

Lemma to_size_t_id z : is_size_t z -> to_size_t z = z.
Proof.
  unfold is_size_t, SIZE_MAX, to_size_t. intros Hz. apply Z.mod_small. lia.
Qed.

Lemma pow2_land_pred k : 0 <= k -> Z.land (2 ^ k) (2 ^ k - 1) = 0.
Proof.
  intros Hk. replace (2 ^ k - 1) with (Z.ones k) by (rewrite Z.ones_equiv; lia).
  rewrite Z.land_ones by done. apply Z.mod_same. 
  pose proof (Z.pow_pos_nonneg 2 k). lia.
Qed.

Lemma land_pred_pow2 b : 0 < b -> Z.land b (b - 1) = 0 -> b = 2 ^ Z.log2 b.
Proof.
  intros Hb Hland.
  destruct (Z.log2_spec b Hb) as [Hlo Hhi].
  destruct (decide (b = 2 ^ Z.log2 b)) as [|Hne]; [done|exfalso].
  assert (Hpos : 0 < 2 ^ Z.log2 b) by (apply Z.pow_pos_nonneg; [lia|apply Z.log2_nonneg]).
  assert (Hlog : Z.log2 (b - 1) = Z.log2 b).
  { apply Z.log2_unique; [apply Z.log2_nonneg|]. rewrite <- Z.add_1_r. 
    replace (Z.succ (Z.log2 b)) with (Z.log2 b + 1) in Hhi by lia. lia. }
  assert (Hbit : Z.testbit (Z.land b (b - 1)) (Z.log2 b) = true).
  { rewrite Z.land_spec, Z.bit_log2 by done.
    rewrite <- Hlog. rewrite Z.bit_log2 by lia. done. }
  rewrite Hland, Z.bits_0 in Hbit. done.
Qed.

Lemma static_assert_pow2 b :
  is_size_t b ->
  static_assert_BUFSZ b = true <-> exists k, 0 <= k <= 63 /\ b = 2 ^ k.
Proof.
  intros Hsz. unfold static_assert_BUFSZ. 
  rewrite andb_true_iff, negb_true_iff, Z.eqb_neq, Z.eqb_eq. split.
  - intros [Hnz Hland]. 
    assert (Hb : 0 < b) by (unfold is_size_t in Hsz; lia).
    rewrite to_size_t_id in Hland by (unfold is_size_t, SIZE_MAX in *; lia).
    exists (Z.log2 b). split; [|by apply land_pred_pow2].
    split; [apply Z.log2_nonneg|].
    assert (Z.log2 b < 64); [|lia].
    apply Z.log2_lt_pow2; [done|]. unfold is_size_t, SIZE_MAX in Hsz. lia.
  - intros (k & Hk & ->).
    assert (0 < 2 ^ k) by (apply Z.pow_pos_nonneg; lia).
    split; [lia|].
    rewrite to_size_t_id; [apply pow2_land_pred; lia|].
    unfold is_size_t, SIZE_MAX in *. lia.
Qed.

(** ** Facts about slot indices *)

Section SlotFacts.

Variable BUFSZ : Z.

Lemma to_size_t_wrap_add a b : to_size_t (wrap_long a + b) = to_size_t (a + b).
Proof.
  unfold to_size_t, wrap_long.
  replace ((a + 2 ^ 63) mod 2 ^ 64 - 2 ^ 63 + b)
    with ((a + 2 ^ 63) mod 2 ^ 64 + (b - 2 ^ 63)) by lia.
  rewrite Zplus_mod_idemp_l. f_equal. lia.
Qed.

(** Wrapping a position to [long] does not change the slot it selects. *)
Lemma slot_wrap_add a b : slot BUFSZ (wrap_long a + b) = slot BUFSZ (a + b).
Proof. unfold slot. by rewrite to_size_t_wrap_add. Qed.

Lemma slot_wrap a : slot BUFSZ (wrap_long a) = slot BUFSZ a.
Proof.
  rewrite <- (Z.add_0_r (wrap_long a)), slot_wrap_add. f_equal. lia.
Qed.

Hypothesis Hsize : is_size_t BUFSZ.
Hypothesis Hassert : static_assert_BUFSZ BUFSZ = true.

Lemma BUFSZ_pos : 0 < BUFSZ.
Proof.
  apply static_assert_pow2 in Hassert as (k & Hk & ->); [|done].
  apply Z.pow_pos_nonneg; lia.
Qed.

(** With a power of two the mask is the remainder of the division. *)
Lemma slot_mod pos : slot BUFSZ pos = Z.to_nat (pos mod BUFSZ).
Proof.
  pose proof BUFSZ_pos as Hpos.
  apply static_assert_pow2 in Hassert as (k & Hk & HB); [|done].
  unfold slot. f_equal.
  rewrite (to_size_t_id (BUFSZ - 1)) by (unfold is_size_t in *; lia).
  replace (BUFSZ - 1) with (Z.ones k) by (rewrite Z.ones_equiv; lia).
  rewrite Z.land_ones by lia. unfold to_size_t. rewrite <- HB.
  apply Z.mod_mod_divide.
  exists (2 ^ (64 - k)). rewrite HB, <- Z.pow_add_r by lia. f_equal. lia.
Qed.

Lemma slot_lt pos : (slot BUFSZ pos < Z.to_nat BUFSZ)%nat.
Proof.
  pose proof BUFSZ_pos. rewrite slot_mod.
  pose proof (Z.mod_pos_bound pos BUFSZ). lia.
Qed.

Lemma slot_of_nat (i : nat) : (i < Z.to_nat BUFSZ)%nat -> slot BUFSZ (Z.of_nat i) = i.
Proof.
  intros Hi. rewrite slot_mod, Z.mod_small by lia. lia.
Qed.

(** Every slot is met within [BUFSZ] increments from any position. *)
Lemma slot_reach pos (i : nat) :
  (i < Z.to_nat BUFSZ)%nat ->
  exists d : nat, (d < Z.to_nat BUFSZ)%nat /\ slot BUFSZ (pos + Z.of_nat d) = i.
Proof.
  intros Hi. pose proof BUFSZ_pos as Hpos.
  pose proof (Z.mod_pos_bound (Z.of_nat i - pos) BUFSZ).
  exists (Z.to_nat ((Z.of_nat i - pos) mod BUFSZ)). split; [lia|].
  rewrite slot_mod, Z2Nat.id by lia.
  rewrite Zplus_mod_idemp_r.
  replace (pos + (Z.of_nat i - pos)) with (Z.of_nat i) by lia.
  rewrite Z.mod_small by lia. lia.
Qed.

Lemma slot_eq_iff a b : slot BUFSZ a = slot BUFSZ b <-> (a - b) mod BUFSZ = 0.
Proof.
  pose proof BUFSZ_pos as Hpos. rewrite !slot_mod.
  pose proof (Z.mod_pos_bound a BUFSZ). pose proof (Z.mod_pos_bound b BUFSZ).
  rewrite Zminus_mod. split.
  - intros Heq. assert (a mod BUFSZ = b mod BUFSZ) as -> by lia.
    rewrite Z.sub_diag. by apply Z.mod_0_l; lia.
  - intros Hz. 
    assert (a mod BUFSZ - b mod BUFSZ = 0); [|lia].
    destruct (decide (b mod BUFSZ <= a mod BUFSZ)).
    + rewrite Z.mod_small in Hz; lia.
    + replace (a mod BUFSZ - b mod BUFSZ)
        with ((a mod BUFSZ - b mod BUFSZ + BUFSZ) + (-1) * BUFSZ) in Hz by lia.
      rewrite Z.mod_add in Hz by lia. rewrite Z.mod_small in Hz; lia.
Qed.

End SlotFacts.

(** ** RcuDataItem: the counter *)

Lemma acquires_cons c cs :
  acquires (c :: cs) = (if is_acquire c then 1 else 0) + acquires cs.
Proof. unfold acquires. simpl. destruct (is_acquire c); simpl; lia. Qed.

Lemma releases_cons c cs :
  releases (c :: cs) = (if is_release c then 1 else 0) + releases cs.
Proof. unfold releases. simpl. destruct (is_release c); simpl; lia. Qed.

(** The counter after any calls, in the arithmetic of [long]. *)
Lemma do_calls_count cs this :
  in_long (m_refCounter this) ->
  queryRefCount (do_calls cs this)
  = wrap_long (m_refCounter this + (acquires cs - releases cs)).
Proof.
  revert this. induction cs as [|c cs IH]; intros this Hthis.
  - unfold acquires, releases. simpl. rewrite Z.add_0_r.
    by rewrite wrap_long_id.
  - change (do_calls (c :: cs) this) with (do_calls cs (do_call c this)).
    rewrite acquires_cons, releases_cons.
    destruct c; simpl do_call; (rewrite IH; [|apply wrap_long_range]); simpl;
      rewrite wrap_long_add_l; f_equal; lia.
Qed.

Lemma release_acquire this :
  in_long (m_refCounter this) -> release (acquire this) = this.
Proof.
  intros Hthis. destruct this as [c]. unfold release, acquire. simpl in *. f_equal.
  replace (wrap_long (c + 1) - 1) with (wrap_long (c + 1) + (- 1)) by lia.
  rewrite wrap_long_add_l, wrap_long_id; [lia|].
  by replace (c + 1 + -1) with c by lia.
Qed.

Lemma do_calls_app cs1 cs2 this :
  do_calls (cs1 ++ cs2) this = do_calls cs2 (do_calls cs1 this).
Proof. apply fold_left_app. Qed.

(** C10: starting from a fresh item (count zero), after any interleaving of
    [a] calls of [acquire()] and [r] calls of [release()] whose balance
    [a - r] a [long] can hold, [queryRefCount()] returns exactly [a - r]:
    an [acquire()] followed by a [release()] brings the count back to what
    it was, and with more releases than acquires the count is negative, as
    nothing clamps it at zero. *)
Theorem refcount_is_acquires_minus_releases (cs : list item_call) :
  in_long (acquires cs - releases cs) ->
  queryRefCount (do_calls cs RcuDataItem_default) = acquires cs - releases cs
  /\ queryRefCount (do_calls (cs ++ [CallAcquire; CallRelease])
                             RcuDataItem_default)
     = queryRefCount (do_calls cs RcuDataItem_default)
  /\ (acquires cs < releases cs ->
      queryRefCount (do_calls cs RcuDataItem_default) < 0).
Proof.
  intros Hrange.
  assert (Hcount : queryRefCount (do_calls cs RcuDataItem_default)
                   = acquires cs - releases cs).
  { rewrite do_calls_count by (by vm_compute). simpl. by apply wrap_long_id. }
  split; [done|]. split; [|lia].
  rewrite do_calls_app.
  change (do_calls [CallAcquire; CallRelease] ?it) with (release (acquire it)).
  rewrite release_acquire; [done|].
  unfold queryRefCount in Hcount. by rewrite Hcount.
Qed.

Lemma refcount_is_acquires_minus_releases_witness :
  in_long (acquires [CallAcquire; CallRelease; CallRelease]
           - releases [CallAcquire; CallRelease; CallRelease])
  /\ queryRefCount (do_calls [CallAcquire; CallRelease; CallRelease]
                             RcuDataItem_default) = -1.
Proof.
  split.
  - by vm_compute.
  - apply (refcount_is_acquires_minus_releases
             [CallAcquire; CallRelease; CallRelease]). by vm_compute.
Defined.

(** C8: a copy-constructed item starts with count zero whatever the count of
    its source, and copy assignment leaves the count of the target as it
    was; the same holds for the implicit copy operations of a derived [T]. *)
Theorem copy_does_not_copy_refcount (V : Type) :
  (forall rhs : RcuDataItem, queryRefCount (RcuDataItem_copy rhs) = 0)
  /\ (forall this rhs : RcuDataItem,
        queryRefCount (RcuDataItem_assign this rhs) = queryRefCount this)
  /\ (forall rhs : T V,
        queryRefCount (base (T_copy rhs)) = 0 /\ value (T_copy rhs) = value rhs)
  /\ (forall this rhs : T V,
        queryRefCount (base (T_assign this rhs)) = queryRefCount (base this)
        /\ value (T_assign this rhs) = value rhs).
Proof. repeat split. Qed.

(** ** Construction *)

Lemma pow2_size_t_exponent b k : is_size_t b -> 0 <= k -> b = 2 ^ k -> k <= 63.
Proof.
  unfold is_size_t, SIZE_MAX. intros Hb Hk ->.
  destruct (decide (k <= 63)) as [|Hbig]; [done|exfalso].
  assert (2 ^ 64 <= 2 ^ k) by (apply Z.pow_le_mono_r; lia). lia.
Qed.

Lemma static_assert_iff b :
  is_size_t b ->
  static_assert_BUFSZ b = true <-> exists k, 0 <= k /\ b = 2 ^ k.
Proof.
  intros Hb. rewrite static_assert_pow2 by done. split.
  - intros (k & Hk & ->). exists k. split; [lia|done].
  - intros (k & Hk & Heq). exists k.
    pose proof (pow2_size_t_exponent b k Hb Hk Heq). split; [lia|done].
Qed.

(** C7: with a capacity [N] that is a power of two (hence nonzero), the
    constructor applied to [N] supplied instances gives a ring whose head is
    0 and whose slot [i] is the [i]-th supplied instance; with any other
    capacity the static assertion fails, whatever is supplied, and no
    instance is made. *)
Theorem ctor_from_supplied_instances (N : Z) (uninit range : list ptr) :
  is_size_t N ->
  Z.of_nat (length uninit) = N ->
  Z.of_nat (length range) = N ->
  ((exists k, 0 <= k /\ N = 2 ^ k) ->
     exists r, RcuDataNoWait_ctor N uninit range = Constructed r
               /\ m_head r = 0
               /\ m_data r = range
               /\ forall i : nat, (i < length range)%nat ->
                                  m_data r !! i = range !! i)
  /\ (~ (exists k, 0 <= k /\ N = 2 ^ k) ->
        forall uninit' range' : list ptr,
          RcuDataNoWait_ctor N uninit' range' = StaticAssertFailure).
Proof.
  intros Hsize Huninit Hrange. unfold RcuDataNoWait_ctor. split.
  - intros Hpow. apply static_assert_iff in Hpow; [|done]. rewrite Hpow. simpl.
    destruct (Z.ltb_spec N (Z.of_nat (length range))) as [Hlt|_]; [lia|].
    eexists. split; [done|]. simpl.
    rewrite drop_ge, app_nil_r by lia. done.
  - intros Hnot uninit' range'.
    destruct (static_assert_BUFSZ N) eqn:Hassert; [|done].
    exfalso. apply Hnot. by apply static_assert_iff.
Qed.

Lemma ctor_from_supplied_instances_witness :
  exists r, RcuDataNoWait_ctor 4 [0; 0; 0; 0]%nat [10; 11; 12; 13]%nat
            = Constructed r
            /\ m_head r = 0 /\ m_data r = [10; 11; 12; 13]%nat.
Proof.
  destruct (ctor_from_supplied_instances 4 [0; 0; 0; 0]%nat [10; 11; 12; 13]%nat)
    as [Hok _].
  - by vm_compute.
  - reflexivity.
  - reflexivity.
  - destruct Hok as (r & Hr & Hhead & Hdata & _).
    + exists 2. split; [lia|reflexivity].
    + exists r. done.
Defined.

(** ** The store *)

Section StoreFacts.

Context {V : Type}.

Implicit Types (h : store V) (p q : ptr).

Lemma store_insert_eq h p (t : T V) : (<[p := t]> h : store V) p = t.
Proof. apply fn_lookup_insert. Qed.

Lemma store_insert_ne h p q (t : T V) : p <> q -> (<[p := t]> h : store V) q = h q.
Proof. apply fn_lookup_insert_ne. Qed.

Lemma assign_at_other h p q rhs : q <> p -> assign_at p rhs h q = h q.
Proof. intros Hne. unfold assign_at. by apply store_insert_ne. Qed.

Lemma assign_at_value h p rhs : value (assign_at p rhs h p) = value rhs.
Proof. unfold assign_at. by rewrite store_insert_eq. Qed.

Lemma assign_at_refCount h p q rhs :
  refCount_at q (assign_at p rhs h) = refCount_at q h.
Proof.
  unfold refCount_at, assign_at. destruct (decide (p = q)) as [->|Hne].
  - by rewrite store_insert_eq.
  - by rewrite store_insert_ne.
Qed.

Lemma acquire_at_refCount h p q :
  refCount_at q (acquire_at p h)
  = if decide (p = q) then wrap_long (refCount_at q h + 1) else refCount_at q h.
Proof.
  unfold refCount_at, acquire_at. destruct (decide (p = q)) as [->|Hne].
  - by rewrite store_insert_eq.
  - by rewrite store_insert_ne.
Qed.

Lemma release_at_refCount h p q :
  refCount_at q (release_at p h)
  = if decide (p = q) then wrap_long (refCount_at q h - 1) else refCount_at q h.
Proof.
  unfold refCount_at, release_at. destruct (decide (p = q)) as [->|Hne].
  - by rewrite store_insert_eq.
  - by rewrite store_insert_ne.
Qed.

Lemma acquire_at_value h p q : value (acquire_at p h q) = value (h q).
Proof.
  unfold acquire_at. destruct (decide (p = q)) as [->|Hne].
  - by rewrite store_insert_eq.
  - by rewrite store_insert_ne.
Qed.

End StoreFacts.

(** ** initUpdate: the scan *)

Section SwapFacts.

Implicit Types l : list nat.

Lemma insert_lookup_total_same l i : <[i := l !!! i]> l = l.
Proof.
  destruct (decide (i < length l)%nat) as [Hlt|Hge].
  - apply list_insert_id. by apply list_lookup_lookup_total_lt.
  - apply list_insert_ge. lia.
Qed.

Lemma swap_slots_same l i : swap_slots i i l = l.
Proof.
  unfold swap_slots. rewrite list_insert_insert_eq.
  apply insert_lookup_total_same.
Qed.

Lemma swap_slots_length l i j : length (swap_slots i j l) = length l.
Proof. unfold swap_slots. by rewrite !length_insert. Qed.

Lemma swap_slots_first l i j :
  (i < length l)%nat -> swap_slots i j l !!! i = l !!! j.
Proof.
  intros Hi. unfold swap_slots.
  apply list_lookup_total_insert_eq. by rewrite length_insert.
Qed.

Lemma swap_slots_second l i j :
  (j < length l)%nat -> swap_slots i j l !!! j = l !!! i.
Proof.
  intros Hj. unfold swap_slots.
  destruct (decide (i = j)) as [->|Hne].
  - apply list_lookup_total_insert_eq. by rewrite length_insert.
  - rewrite list_lookup_total_insert_ne by done.
    by apply list_lookup_total_insert_eq.
Qed.

Lemma swap_slots_other l i j k :
  k <> i -> k <> j -> swap_slots i j l !! k = l !! k.
Proof.
  intros Hi Hj. unfold swap_slots.
  by rewrite !list_lookup_insert_ne by done.
Qed.

Lemma swap_slots_perm l i j :
  (i < length l)%nat -> (j < length l)%nat -> swap_slots i j l ≡ₚ l.
Proof.
  intros Hi Hj. unfold swap_slots.
  apply Permutation_insert_swap; by apply list_lookup_lookup_total_lt.
Qed.

End SwapFacts.

Section InitUpdate.

Context {V : Type}.
Variable BUFSZ : Z.

Implicit Types (m : Memory V) (pc : publisher) (p : ptr).

Lemma swap_in_same m i : swap_in i i m = m.
Proof.
  unfold swap_in. rewrite swap_slots_same. by destruct m as [h [d hd]].
Qed.

(** More fuel does not change a result. *)
Lemma initUpdate_run_mono fuel fuel' m pc res :
  (fuel <= fuel')%nat ->
  initUpdate_run BUFSZ fuel m pc = Some res ->
  initUpdate_run BUFSZ fuel' m pc = Some res.
Proof.
  revert fuel' m pc. induction fuel as [|fuel IH]; intros fuel' m pc Hle Hrun.
  - destruct pc; simpl in Hrun; try done. by destruct fuel'.
  - destruct fuel' as [|fuel']; [lia|].
    destruct pc; simpl in *; try done;
      repeat case_match; simplify_eq; (eapply IH; [|done]); lia.
Qed.

(** What a returning scan has seen: [d] referenced slots, then a free one. *)
Lemma scan_returns fuel m first n p m' :
  initUpdate_run BUFSZ fuel m (InitScan first n) = Some (p, m') ->
  exists d : nat,
    (d < fuel)%nat
    /\ (forall j : nat, (j < d)%nat ->
          slot_refCount m (slot BUFSZ (n + Z.of_nat j)) <> 0)
    /\ slot_refCount m (slot BUFSZ (n + Z.of_nat d)) = 0
    /\ m' = swap_in first (slot BUFSZ (n + Z.of_nat d)) m
    /\ p = m_data (rcu m') !!! first.
Proof.
  revert n. induction fuel as [|fuel IH]; intros n Hrun; [done|].
  simpl in Hrun.
  destruct (Z.eqb_spec (slot_refCount m (slot BUFSZ n)) 0) as [Hfree|Hbusy].
  - exists 0%nat. rewrite Z.add_0_r.
    assert (Some (p, m') = Some (m_data (rcu (swap_in first (slot BUFSZ n) m))
                                   !!! first, swap_in first (slot BUFSZ n) m))
      as Heq by (by destruct fuel). simplify_eq.
    repeat split; [lia|lia|done].
  - apply IH in Hrun as (d & Hd & Hbefore & Hfree & Hm' & Hp).
    exists (S d). rewrite slot_wrap_add in Hfree, Hm'.
    replace (n + Z.of_nat (S d)) with (n + 1 + Z.of_nat d) by lia.
    repeat split; [lia| |done..].
    intros [|j] Hj.
    + by rewrite Z.add_0_r.
    + specialize (Hbefore j). rewrite slot_wrap_add in Hbefore.
      replace (n + Z.of_nat (S j)) with (n + 1 + Z.of_nat j) by lia.
      apply Hbefore. lia.
Qed.

(** A free slot [d] positions ahead ends the scan within [d + 1] tests. *)
Lemma scan_terminates m first n (d : nat) :
  slot_refCount m (slot BUFSZ (n + Z.of_nat d)) = 0 ->
  exists res, initUpdate_run BUFSZ (S d) m (InitScan first n) = Some res.
Proof.
  revert n. induction d as [|d IH]; intros n Hfree.
  - rewrite Z.add_0_r in Hfree. simpl.
    rewrite Hfree. simpl. eauto.
  - cbn [initUpdate_run initUpdate_step].
    destruct (Z.eqb_spec (slot_refCount m (slot BUFSZ n)) 0) as [H0|Hbusy].
    + simpl. eauto.
    + apply IH. rewrite slot_wrap_add.
      by replace (n + 1 + Z.of_nat d) with (n + Z.of_nat (S d)) by lia.
Qed.

(** When every index the mask can produce is referenced the scan goes on. *)
Lemma scan_diverges fuel m first n :
  (forall pos, slot_refCount m (slot BUFSZ pos) <> 0) ->
  initUpdate_run BUFSZ fuel m (InitScan first n) = None.
Proof.
  intros Hbusy. revert n. induction fuel as [|fuel IH]; intros n; [done|].
  simpl. destruct (Z.eqb_spec (slot_refCount m (slot BUFSZ n)) 0) as [H0|_].
  - by apply Hbusy in H0.
  - apply IH.
Qed.

(** What a returning call has seen, counted from the slot after the head. *)
Lemma initUpdate_returns fuel m p m' :
  initUpdate BUFSZ fuel m = Some (p, m') ->
  exists d : nat,
    (S d < fuel)%nat
    /\ (forall j : nat, (j < d)%nat ->
          slot_refCount m (slot BUFSZ (m_head (rcu m) + 1 + Z.of_nat j)) <> 0)
    /\ slot_refCount m (slot BUFSZ (m_head (rcu m) + 1 + Z.of_nat d)) = 0
    /\ m' = swap_in (slot BUFSZ (m_head (rcu m) + 1))
                    (slot BUFSZ (m_head (rcu m) + 1 + Z.of_nat d)) m
    /\ p = m_data (rcu m') !!! slot BUFSZ (m_head (rcu m) + 1).
Proof.
  unfold initUpdate. destruct fuel as [|[|fuel]]; [done..|].
  cbn [initUpdate_run initUpdate_step]. rewrite slot_wrap.
  set (first := slot BUFSZ (m_head (rcu m) + 1)).
  destruct (Z.eqb_spec (slot_refCount m first) 0) as [Hfree|Hbusy].
  - intros Hrun. exists 0%nat. rewrite Z.add_0_r. fold first.
    rewrite swap_in_same.
    assert (Some (p, m') = Some (m_data (rcu m) !!! first, m)) as Heq
        by (by destruct fuel).
    simplify_eq. repeat split; [lia|lia|done].
  - intros (d & Hd & Hbefore & Hfree & Hm' & Hp)%scan_returns.
    assert (Hpos : forall j : nat,
               slot BUFSZ (wrap_long (wrap_long (m_head (rcu m) + 1) + 1)
                           + Z.of_nat j)
               = slot BUFSZ (m_head (rcu m) + 1 + Z.of_nat (S j))).
    { intros j. rewrite slot_wrap_add, <- Z.add_assoc, slot_wrap_add.
      f_equal. lia. }
    exists (S d). rewrite Hpos in Hfree, Hm'.
    repeat split; [lia| |done..].
    intros [|j] Hj.
    + by rewrite Z.add_0_r.
    + rewrite <- Hpos. apply Hbefore. lia.
Qed.

Lemma initUpdate_terminates m (d : nat) :
  slot_refCount m (slot BUFSZ (m_head (rcu m) + 1 + Z.of_nat d)) = 0 ->
  exists res, initUpdate BUFSZ (d + 2) m = Some res.
Proof.
  intros Hfree. unfold initUpdate.
  replace (d + 2)%nat with (S (S d)) by lia.
  cbn [initUpdate_run initUpdate_step]. rewrite slot_wrap.
  destruct (Z.eqb_spec (slot_refCount m (slot BUFSZ (m_head (rcu m) + 1))) 0)
    as [H0|Hbusy].
  - destruct d; simpl; eauto.
  - destruct d as [|d]; [by rewrite Z.add_0_r in Hfree|].
    destruct (scan_terminates m (slot BUFSZ (m_head (rcu m) + 1))
                (wrap_long (wrap_long (m_head (rcu m) + 1) + 1)) d)
      as [res Hres].
    + rewrite slot_wrap_add, <- Z.add_assoc, slot_wrap_add.
      by replace (m_head (rcu m) + 1 + (1 + Z.of_nat d))
        with (m_head (rcu m) + 1 + Z.of_nat (S d)) by lia.
    + exists res. eapply initUpdate_run_mono; [|done]. lia.
Qed.

Lemma initUpdate_run_diverges fuel m pc :
  (forall pos, slot_refCount m (slot BUFSZ pos) <> 0) ->
  (forall p, pc <> InitReturned p) ->
  initUpdate_run BUFSZ fuel m pc = None.
Proof.
  intros Hbusy Hpc. destruct pc as [|n|first n|p].
  - destruct fuel as [|[|fuel]]; [done..|].
    cbn [initUpdate_run initUpdate_step].
    destruct (Z.eqb_spec (slot_refCount m
                (slot BUFSZ (wrap_long (m_head (rcu m) + 1)))) 0) as [H0|_].
    + by apply Hbusy in H0.
    + by apply scan_diverges.
  - destruct fuel as [|fuel]; [done|].
    cbn [initUpdate_run initUpdate_step].
    destruct (Z.eqb_spec (slot_refCount m (slot BUFSZ n)) 0) as [H0|_].
    + by apply Hbusy in H0.
    + by apply scan_diverges.
  - by apply scan_diverges.
  - by destruct (Hpc p).
Qed.

(** *** Facts that need a well-formed ring *)

Section WellFormed.

Variable m : Memory V.
Hypothesis Hwf : wf BUFSZ (rcu m).

Lemma wf_length : length (m_data (rcu m)) = Z.to_nat BUFSZ.
Proof. destruct Hwf as (_ & _ & Hlen). lia. Qed.

Lemma wf_slot_lt pos : (slot BUFSZ pos < length (m_data (rcu m)))%nat.
Proof.
  destruct Hwf as (Hsize & Hassert & _). rewrite wf_length. by apply slot_lt.
Qed.

Lemma wf_slot_mod pos : slot BUFSZ pos = Z.to_nat (pos mod BUFSZ).
Proof. destruct Hwf as (Hsize & Hassert & _). by apply slot_mod. Qed.

Lemma wf_slot_reach pos (i : nat) :
  (i < length (m_data (rcu m)))%nat ->
  exists d : nat, (d < Z.to_nat BUFSZ)%nat /\ slot BUFSZ (pos + Z.of_nat d) = i.
Proof.
  destruct Hwf as (Hsize & Hassert & _). rewrite wf_length. by apply slot_reach.
Qed.

Lemma has_free_slot_reach pos :
  has_free_slot m ->
  exists d : nat, (d < Z.to_nat BUFSZ)%nat
                  /\ slot_refCount m (slot BUFSZ (pos + Z.of_nat d)) = 0.
Proof.
  intros (i & Hi & Hfree).
  destruct (wf_slot_reach pos i Hi) as (d & Hd & Heq).
  exists d. by rewrite Heq.
Qed.

Lemma no_free_slot_busy :
  ~ has_free_slot m -> forall pos, slot_refCount m (slot BUFSZ pos) <> 0.
Proof.
  intros Hnone pos Hfree. apply Hnone.
  exists (slot BUFSZ pos). split; [apply wf_slot_lt|done].
Qed.

(** The pointer returned is the one the scan stopped at. *)
Lemma initUpdate_returns_found fuel p m' :
  initUpdate BUFSZ fuel m = Some (p, m') ->
  exists d : nat,
    (forall j : nat, (j < d)%nat ->
       slot_refCount m (slot BUFSZ (m_head (rcu m) + 1 + Z.of_nat j)) <> 0)
    /\ slot_refCount m (slot BUFSZ (m_head (rcu m) + 1 + Z.of_nat d)) = 0
    /\ m' = swap_in (slot BUFSZ (m_head (rcu m) + 1))
                    (slot BUFSZ (m_head (rcu m) + 1 + Z.of_nat d)) m
    /\ p = m_data (rcu m) !!! slot BUFSZ (m_head (rcu m) + 1 + Z.of_nat d).
Proof.
  intros (d & _ & Hbefore & Hfree & -> & ->)%initUpdate_returns.
  exists d. repeat split; [done..|].
  simpl. apply swap_slots_first, wf_slot_lt.
Qed.

(** The effect of a returning call on the array. *)
Lemma initUpdate_effect fuel p m' :
  initUpdate BUFSZ fuel m = Some (p, m') ->
  let first := slot BUFSZ (m_head (rcu m) + 1) in
  m_data (rcu m') !! first = Some p
  /\ (exists found : nat,
        (found < length (m_data (rcu m)))%nat
        /\ m_data (rcu m) !! found = Some p
        /\ m_data (rcu m') !! found = m_data (rcu m) !! first
        /\ forall i : nat, i <> first -> i <> found ->
             m_data (rcu m') !! i = m_data (rcu m) !! i)
  /\ m_data (rcu m') ≡ₚ m_data (rcu m)
  /\ heap m' = heap m
  /\ m_head (rcu m') = m_head (rcu m).
Proof.
  intros (d & _ & Hfree & -> & ->)%initUpdate_returns_found. simpl.
  set (first := slot BUFSZ (m_head (rcu m) + 1)).
  set (found := slot BUFSZ (m_head (rcu m) + 1 + Z.of_nat d)).
  pose proof (wf_slot_lt (m_head (rcu m) + 1)) as Hfirst.
  pose proof (wf_slot_lt (m_head (rcu m) + 1 + Z.of_nat d)) as Hfound.
  fold first in Hfirst. fold found in Hfound.
  repeat split.
  - rewrite <- (swap_slots_first _ first found Hfirst).
    apply list_lookup_lookup_total_lt. by rewrite swap_slots_length.
  - exists found. repeat split; [done| | |].
    + by apply list_lookup_lookup_total_lt.
    + rewrite (list_lookup_lookup_total_lt (m_data (rcu m)) first Hfirst).
      rewrite <- (swap_slots_second _ first found Hfound).
      apply list_lookup_lookup_total_lt. by rewrite swap_slots_length.
    + intros i Hi1 Hi2. by apply swap_slots_other.
  - by apply swap_slots_perm.
Qed.


Lemma initUpdate_run_terminates pc :
  has_free_slot m ->
  exists res, initUpdate_run BUFSZ (Z.to_nat BUFSZ + 2) m pc = Some res.
Proof.
  intros Hfree. destruct pc as [|n|first n|p].
  - destruct (has_free_slot_reach (m_head (rcu m) + 1) Hfree) as (d & Hd & H0).
    destruct (initUpdate_terminates m d H0) as [res Hres].
    exists res. eapply initUpdate_run_mono; [|done]. lia.
  - destruct (has_free_slot_reach (n + 1) Hfree) as (d & Hd & H0).
    replace (Z.to_nat BUFSZ + 2)%nat with (S (Z.to_nat BUFSZ + 1)) by lia.
    cbn [initUpdate_run initUpdate_step].
    destruct (Z.eqb_spec (slot_refCount m (slot BUFSZ n)) 0) as [_|_].
    + replace (Z.to_nat BUFSZ + 1)%nat with (S (Z.to_nat BUFSZ)) by lia.
      simpl. eauto.
    + rewrite <- slot_wrap_add in H0.
      destruct (scan_terminates m (slot BUFSZ n) _ d H0) as [res Hres].
      exists res. eapply initUpdate_run_mono; [|done]. lia.
  - destruct (has_free_slot_reach n Hfree) as (d & Hd & H0).
    destruct (scan_terminates m first n d H0) as [res Hres].
    exists res. eapply initUpdate_run_mono; [|done]. lia.
  - replace (Z.to_nat BUFSZ + 2)%nat with (S (S (Z.to_nat BUFSZ))) by lia.
    simpl. eauto.
Qed.

End WellFormed.

End InitUpdate.

(** ** initUpdate: the claims *)


(** C5: after [initUpdate()] returns, the returned pointer sits at index
    [(head + 1) mod BUFSZ]; the entries at all indices but that one and the
    one where the free slot was found are unchanged; the array is a
    permutation of what it was; the objects themselves and the head are
    untouched. *)
Theorem initUpdate_swaps_handles_only
    {V : Type} (BUFSZ : Z) (m : Memory V) (fuel : nat) (p : ptr) (m' : Memory V) :
  wf BUFSZ (rcu m) ->
  initUpdate BUFSZ fuel m = Some (p, m') ->
  let first := Z.to_nat ((m_head (rcu m) + 1) mod BUFSZ) in
  m_data (rcu m') !! first = Some p
  /\ (exists found : nat,
        (found < length (m_data (rcu m)))%nat
        /\ m_data (rcu m) !! found = Some p
        /\ m_data (rcu m') !! found = m_data (rcu m) !! first
        /\ forall i : nat, i <> first -> i <> found ->
             m_data (rcu m') !! i = m_data (rcu m) !! i)
  /\ m_data (rcu m') ≡ₚ m_data (rcu m)
  /\ heap m' = heap m
  /\ m_head (rcu m') = m_head (rcu m).
Proof.
  intros Hwf Hinit. rewrite <- (wf_slot_mod BUFSZ m Hwf).
  exact (initUpdate_effect BUFSZ m Hwf fuel p m' Hinit).
Qed.

Lemma initUpdate_swaps_handles_only_witness :
  m_data (rcu (example_memory [10; 11]%nat [10; 12; 11; 13]%nat 0)) !! 1%nat = Some 12%nat
  /\ [10; 12; 11; 13]%nat ≡ₚ [10; 11; 12; 13]%nat.
Proof.
  destruct (initUpdate_swaps_handles_only 4
              (example_memory [10; 11]%nat [10; 11; 12; 13]%nat 0) 5 12%nat
              (example_memory [10; 11]%nat [10; 12; 11; 13]%nat 0))
    as (Hat & _ & Hperm & _).
  - repeat split; by vm_compute.
  - reflexivity.
  - split; [exact Hat|exact Hperm].
Defined.

(** C6: with the reference counts left alone, [initUpdate()] returns if and
    only if some slot of the ring has count zero, and then what it returns
    is such a slot of the ring, reached within [BUFSZ + 2] steps; when every slot
    is referenced the scan never returns, from whichever point it is
    resumed, and as soon as some count is zero it returns from whichever
    point it is resumed. *)
Theorem initUpdate_terminates_iff_free_slot
    {V : Type} (BUFSZ : Z) (m : Memory V) :
  wf BUFSZ (rcu m) ->
  ((exists fuel p m', initUpdate BUFSZ fuel m = Some (p, m'))
     <-> has_free_slot m)
  /\ (forall fuel p m', initUpdate BUFSZ fuel m = Some (p, m') ->
        refCount_at p (heap m) = 0 /\ p ∈ m_data (rcu m))
  /\ ((forall i : nat, (i < length (m_data (rcu m)))%nat ->
         slot_refCount m i <> 0) ->
      forall fuel pc, (forall p, pc <> InitReturned p) ->
        initUpdate_run BUFSZ fuel m pc = None)
  /\ (has_free_slot m ->
      forall pc, exists p m',
        initUpdate_run BUFSZ (Z.to_nat BUFSZ + 2) m pc = Some (p, m')).
Proof.
  intros Hwf.
  assert (Hret : forall fuel p m', initUpdate BUFSZ fuel m = Some (p, m') ->
            exists i : nat, (i < length (m_data (rcu m)))%nat
                            /\ slot_refCount m i = 0
                            /\ p = m_data (rcu m) !!! i).
  { intros fuel p m' (d & _ & Hfree & _ & ->)%initUpdate_returns_found; [|done].
    eexists. split; [by apply wf_slot_lt|]. split; [exact Hfree|done]. }
  assert (Hall : has_free_slot m -> forall pc, exists p m',
            initUpdate_run BUFSZ (Z.to_nat BUFSZ + 2) m pc = Some (p, m')).
  { intros Hfree pc.
    destruct (initUpdate_run_terminates BUFSZ m Hwf pc Hfree) as [[p m'] Hres].
    by exists p, m'. }
  repeat split.
  - intros (fuel & p & m' & (i & Hi & H0 & _)%Hret). by exists i.
  - intros Hfree. destruct (Hall Hfree PubIdle) as (p & m' & Hres).
    by exists (Z.to_nat BUFSZ + 2)%nat, p, m'.
  - by apply Hret in H as (i & Hi & H0 & ->).
  - apply Hret in H as (i & Hi & H0 & ->).
    by apply list_elem_of_lookup_total_2.
  - intros Hbusy fuel pc Hpc. apply initUpdate_run_diverges; [|done].
    intros pos. apply Hbusy. by apply wf_slot_lt.
  - done.
Qed.

Lemma initUpdate_terminates_iff_free_slot_witness :
  (exists p m', initUpdate 4 6 (example_memory [10; 11]%nat [10; 11; 12; 13]%nat 0)
                = Some (p, m'))
  /\ initUpdate 4 1000 (example_memory [10; 11; 12; 13]%nat [10; 11; 12; 13]%nat 0)
     = None.
Proof.
  split.
  - destruct (initUpdate_terminates_iff_free_slot 4
                (example_memory [10; 11]%nat [10; 11; 12; 13]%nat 0))
      as (_ & _ & _ & Hfree).
    + repeat split; by vm_compute.
    + apply (Hfree ltac:(exists 2%nat; split; [simpl; lia|reflexivity]) PubIdle).
  - destruct (initUpdate_terminates_iff_free_slot 4
                (example_memory [10; 11; 12; 13]%nat [10; 11; 12; 13]%nat 0))
      as (_ & _ & Hbusy & _).
    + repeat split; by vm_compute.
    + apply Hbusy; [|done].
      intros [|[|[|[|i]]]] Hi; try (by vm_compute). simpl in Hi. lia.
Defined.

(** C3, as stated, does not hold: nothing in [initUpdate()] looks at the head
    slot differently from the others.  In a ring of four distinct slots in
    which the three slots other than the published one are referenced and
    the published one is not, the scan wraps around and returns the
    published slot. *)
Lemma initUpdate_can_return_published_slot :
  ~ (forall (BUFSZ : Z) (m : Memory Z) (fuel : nat) (p : ptr) (m' : Memory Z),
       wf BUFSZ (rcu m) ->
       NoDup (m_data (rcu m)) ->
       initUpdate BUFSZ fuel m = Some (p, m') ->
       p <> publisherRead BUFSZ m).
Proof.
  intros Hclaim.
  apply (Hclaim 4 (example_memory [10; 11; 12]%nat [10; 11; 12; 13]%nat 3)
           6%nat 13%nat
           (example_memory [10; 11; 12]%nat [13; 11; 12; 10]%nat 3)).
  - repeat split; by vm_compute.
  - apply (bool_decide_unpack _). by vm_compute.
  - reflexivity.
  - reflexivity.
Qed.

(** Two reader threads, each inside one call of [read()], are enough to
    bring a ring of four into such a state: after [pinning_schedule] the
    publisher is between calls, slot 13 is the published one, and the next
    call of [initUpdate()] returns it. *)
Lemma two_readers_pin_all_other_slots :
  let start := {| mem := example_memory []%nat [10; 11; 12; 13]%nat 0;
                  pub := PubIdle; threads := replicate 2 ReadEntry |} in
  let pinned := system_run 4 pinning_schedule start in
  pub pinned = PubIdle
  /\ publisherRead 4 (mem pinned) = 13%nat
  /\ map (fun p => refCount_at p (heap (mem pinned))) [10; 11; 12; 13]%nat
     = [1; 1; 1; 0]
  /\ pub (system_run 4 (replicate 5 EvInitUpdate) pinned) = InitReturned 13.
Proof. by vm_compute. Qed.

(** The count is tested when the slot is selected, not when it is written:
    a reader that fetched the pointer before the selection and takes its
    reference after it returns a handle to the slot the publisher is about
    to write. *)
Lemma handle_taken_after_selection_is_written :
  let start := {| mem := example_memory []%nat [10; 11; 12; 13]%nat 0;
                  pub := PubIdle; threads := replicate 2 ReadEntry |} in
  let before := system_run 4 late_handle_schedule start in
  let after := system_step 4 before (EvAssign 99) in
  pub before = InitReturned 13
  /\ threads before !! 1%nat = Some (ReadReturned (Some 13%nat))
  /\ threads after !! 1%nat = Some (ReadReturned (Some 13%nat))
  /\ value (heap (mem before) 13%nat) = 3
  /\ value (heap (mem after) 13%nat) = 99.
Proof. by vm_compute. Qed.

(** C3, amended: in a ring of distinct slots, the slot that [initUpdate()]
    returns is not the published one whenever some other slot has count
    zero; when no other slot has count zero, it is the published slot that
    is returned. *)
Theorem initUpdate_avoids_published_slot_if_other_free
    {V : Type} (BUFSZ : Z) (m : Memory V) (fuel : nat) (p : ptr) (m' : Memory V) :
  wf BUFSZ (rcu m) ->
  NoDup (m_data (rcu m)) ->
  initUpdate BUFSZ fuel m = Some (p, m') ->
  ((exists i : nat, (i < length (m_data (rcu m)))%nat
                    /\ i <> slot BUFSZ (m_head (rcu m))
                    /\ slot_refCount m i = 0) ->
   p <> publisherRead BUFSZ m)
  /\ ((forall i : nat, (i < length (m_data (rcu m)))%nat ->
         i <> slot BUFSZ (m_head (rcu m)) -> slot_refCount m i <> 0) ->
      p = publisherRead BUFSZ m).
Proof.
  intros Hwf Hnodup (d & Hbefore & Hfree & _ & ->)%initUpdate_returns_found;
    [|done].
  set (head := m_head (rcu m)) in *.
  pose proof (wf_slot_lt BUFSZ m Hwf (head + 1 + Z.of_nat d)) as Hfound.
  pose proof (wf_slot_lt BUFSZ m Hwf head) as Hhead.
  destruct Hwf as (Hsize & Hassert & Hlen).
  pose proof (BUFSZ_pos BUFSZ Hsize Hassert) as Hpos.
  unfold publisherRead. fold head. split.
  - intros (i & Hi & Hnothead & Hi0) Heq.
    assert (Hsame : slot BUFSZ (head + 1 + Z.of_nat d) = slot BUFSZ head).
    { eapply NoDup_lookup; [done|by apply list_lookup_lookup_total_lt|].
      rewrite Heq. by apply list_lookup_lookup_total_lt. }
    apply slot_eq_iff in Hsame; [|done..].
    replace (head + 1 + Z.of_nat d - head) with (1 + Z.of_nat d) in Hsame by lia.
    assert (BUFSZ <= 1 + Z.of_nat d) as Hd.
    { destruct (decide (BUFSZ <= 1 + Z.of_nat d)); [done|].
      rewrite Z.mod_small in Hsame; lia. }
    destruct (slot_reach BUFSZ Hsize Hassert (head + 1) i) as (e & He & Hei);
      [lia|].
    destruct (decide (e < d)%nat) as [Hlt|Hge].
    + apply (Hbefore e Hlt). by rewrite Hei.
    + assert (e = d) as -> by lia.
      apply Hnothead. rewrite <- Hei.
      apply slot_eq_iff; [done..|].
      by replace (head + 1 + Z.of_nat d - head) with (1 + Z.of_nat d) by lia.
  - intros Hothers. f_equal.
    destruct (decide (slot BUFSZ (head + 1 + Z.of_nat d) = slot BUFSZ head))
      as [|Hne]; [done|].
    by destruct (Hothers _ Hfound Hne).
Qed.

Lemma initUpdate_avoids_published_slot_if_other_free_witness :
  12%nat <> publisherRead 4 (example_memory [11]%nat [10; 11; 12; 13]%nat 0).
Proof.
  destruct (initUpdate_avoids_published_slot_if_other_free 4
              (example_memory [11]%nat [10; 11; 12; 13]%nat 0) 5 12%nat
              (example_memory [11]%nat [10; 12; 11; 13]%nat 0))
    as [Hother _].
  - repeat split; by vm_compute.
  - apply (bool_decide_unpack _). by vm_compute.
  - reflexivity.
  - apply Hother. exists 3%nat. repeat split; [simpl; lia|by vm_compute].
Defined.

(** C9: a capacity of one passes the static assertion and a ring is
    constructed; in it the position where [initUpdate()] starts selects the
    same slot as the head, so when the count of the only slot is zero
    [initUpdate()] returns the published slot itself. *)
Theorem bufsz_one_returns_published_slot
    {V : Type} (m : Memory V) (uninit : list ptr) (p0 : ptr) (fuel : nat) :
  length uninit = 1%nat ->
  length (m_data (rcu m)) = 1%nat ->
  slot_refCount m 0 = 0 ->
  (2 <= fuel)%nat ->
  static_assert_BUFSZ 1 = true
  /\ RcuDataNoWait_ctor 1 uninit [p0]
     = Constructed {| m_data := [p0]; m_head := 0 |}
  /\ slot 1 (wrap_long (m_head (rcu m) + 1)) = slot 1 (m_head (rcu m))
  /\ initUpdate 1 fuel m = Some (publisherRead 1 m, m).
Proof.
  intros Huninit Hlen Hfree Hfuel.
  assert (Hslot : forall pos, slot 1 pos = 0%nat).
  { intros pos. unfold slot. change (to_size_t (1 - 1)) with 0.
    by rewrite Z.land_0_r. }
  repeat split.
  - unfold RcuDataNoWait_ctor. simpl.
    destruct uninit as [|u [|]]; simpl in Huninit; try lia. done.
  - by rewrite !Hslot.
  - unfold initUpdate, publisherRead. destruct fuel as [|[|fuel]]; [lia..|].
    cbn [initUpdate_run initUpdate_step]. rewrite !Hslot, Hfree. simpl.
    by destruct fuel.
Qed.

Lemma bufsz_one_returns_published_slot_witness :
  initUpdate 1 2 (example_memory []%nat [10]%nat 5)
  = Some (publisherRead 1 (example_memory []%nat [10]%nat 5),
          example_memory []%nat [10]%nat 5).
Proof.
  apply (bufsz_one_returns_published_slot
           (example_memory []%nat [10]%nat 5) [0]%nat 10%nat 2).
  - reflexivity.
  - reflexivity.
  - reflexivity.
  - lia.
Defined.

(** ** Sequential use: update cycles followed by a read *)

Section Sequential.

Context {V : Type}.
Variable BUFSZ : Z.

Implicit Types (m : Memory V) (p : ptr).

(** Alone, [read()] goes through its loop body once. *)
Lemma read_alone fuel m :
  (5 <= fuel)%nat ->
  read BUFSZ fuel m
  = Some (Some (publisherRead BUFSZ m),
          with_heap m (acquire_at (publisherRead BUFSZ m) (heap m))).
Proof.
  intros Hfuel. do 5 (destruct fuel as [|fuel]; [lia|]).
  unfold read. cbn [read_run reader_step with_heap run_deleter rcu heap].
  rewrite Z.eqb_refl. by destruct fuel.
Qed.

Lemma has_free_slot_elem m :
  has_free_slot m <-> exists p, p ∈ m_data (rcu m) /\ refCount_at p (heap m) = 0.
Proof.
  unfold has_free_slot, slot_refCount. split.
  - intros (i & Hi & H0). eexists. split; [|exact H0].
    by apply list_elem_of_lookup_total_2.
  - intros (p & (i & Hi)%list_elem_of_lookup_1 & H0).
    exists i. split; [by eapply lookup_lt_Some|].
    by rewrite (list_lookup_total_correct _ _ _ Hi).
Qed.

(** One cycle publishes the mutated value and keeps the ring well formed. *)
Lemma update_cycle_publishes fuel (mutate : V -> V) m m' :
  wf BUFSZ (rcu m) ->
  update_cycle BUFSZ fuel mutate m = Some m' ->
  wf BUFSZ (rcu m')
  /\ value (heap m' (publisherRead BUFSZ m'))
     = mutate (value (heap m (publisherRead BUFSZ m)))
  /\ (forall q, refCount_at q (heap m') = refCount_at q (heap m))
  /\ m_data (rcu m') ≡ₚ m_data (rcu m).
Proof.
  intros Hwf. unfold update_cycle.
  destruct (initUpdate BUFSZ fuel m) as [[p m1]|] eqn:Hinit; [|done].
  intros [= <-].
  destruct (initUpdate_effect BUFSZ m Hwf fuel p m1 Hinit)
    as (Hat & _ & Hperm & Hheap & Hhead).
  split; [|repeat split].
  - destruct Hwf as (Hsize & Hassert & Hlen). repeat split; [apply Hsize..|done|].
    simpl. by rewrite (Permutation_length Hperm).
  - match goal with
    | |- value (heap ?mc (publisherRead BUFSZ ?mc)) = _ =>
        assert (publisherRead BUFSZ mc = p) as ->
    end.
    { unfold publisherRead. simpl. rewrite Hhead, slot_wrap.
      by apply list_lookup_total_correct. }
    simpl. by rewrite assign_at_value.
  - intros q. simpl. by rewrite assign_at_refCount, Hheap.
  - done.
Qed.

Lemma update_cycle_keeps_free_slot fuel (mutate : V -> V) m m' :
  wf BUFSZ (rcu m) ->
  update_cycle BUFSZ fuel mutate m = Some m' ->
  has_free_slot m -> has_free_slot m'.
Proof.
  intros Hwf Hcycle.
  destruct (update_cycle_publishes fuel mutate m m' Hwf Hcycle)
    as (_ & _ & Hcount & Hperm).
  rewrite !has_free_slot_elem. intros (p & Hp & H0).
  exists p. split; [by rewrite Hperm|]. by rewrite Hcount.
Qed.

Lemma update_cycle_completes fuel (mutate : V -> V) m :
  wf BUFSZ (rcu m) ->
  has_free_slot m ->
  (Z.to_nat BUFSZ + 2 <= fuel)%nat ->
  exists m', update_cycle BUFSZ fuel mutate m = Some m'.
Proof.
  intros Hwf Hfree Hfuel. unfold update_cycle.
  destruct (initUpdate_run_terminates BUFSZ m Hwf PubIdle Hfree) as [[p m1] Hres].
  fold (initUpdate BUFSZ (Z.to_nat BUFSZ + 2) m) in Hres.
  unfold initUpdate in *.
  rewrite (initUpdate_run_mono BUFSZ _ fuel _ _ _ Hfuel Hres). eauto.
Qed.

Lemma update_cycles_publish fuel (mutations : list (V -> V)) m :
  wf BUFSZ (rcu m) ->
  has_free_slot m ->
  (Z.to_nat BUFSZ + 2 <= fuel)%nat ->
  exists m', update_cycles BUFSZ fuel mutations m = Some m'
             /\ wf BUFSZ (rcu m')
             /\ value (heap m' (publisherRead BUFSZ m'))
                = fold_left (fun v f => f v) mutations
                    (value (heap m (publisherRead BUFSZ m))).
Proof.
  intros Hwf Hfree Hfuel. revert m Hwf Hfree.
  induction mutations as [|f rest IH]; intros m Hwf Hfree.
  - exists m. split; [done|]. by split.
  - destruct (update_cycle_completes fuel f m Hwf Hfree Hfuel) as [m1 Hm1].
    destruct (update_cycle_publishes fuel f m m1 Hwf Hm1) as (Hwf1 & Hval & _).
    pose proof (update_cycle_keeps_free_slot fuel f m m1 Hwf Hm1 Hfree) as Hfree1.
    destruct (IH m1 Hwf1 Hfree1) as (m' & Hrun & Hwf' & Hval').
    exists m'. cbn [update_cycles fold_left]. rewrite Hm1, <- Hval. done.
Qed.

End Sequential.

(** C1: starting from any well-formed ring with a free slot, after any
    sequence of complete update cycles run one after the other a [read()]
    returns a handle whose payload is the value written by the last cycle,
    that is, the mutations applied in commit order to the value that was
    published at the start. *)
Theorem read_after_commit_observes_published_value
    {V : Type} (BUFSZ : Z) (m : Memory V) (mutations : list (V -> V))
    (fuel : nat) :
  wf BUFSZ (rcu m) ->
  has_free_slot m ->
  (Z.to_nat BUFSZ + 2 <= fuel)%nat ->
  exists m' handle m'',
    update_cycles BUFSZ fuel mutations m = Some m'
    /\ read BUFSZ 5 m' = Some (Some handle, m'')
    /\ value (heap m'' handle)
       = fold_left (fun v f => f v) mutations
           (value (heap m (publisherRead BUFSZ m))).
Proof.
  intros Hwf Hfree Hfuel.
  destruct (update_cycles_publish BUFSZ fuel mutations m Hwf Hfree Hfuel)
    as (m' & Hrun & _ & Hval).
  exists m', (publisherRead BUFSZ m'),
    (with_heap m' (acquire_at (publisherRead BUFSZ m') (heap m'))).
  split; [done|]. split; [by apply read_alone|].
  simpl. by rewrite acquire_at_value.
Qed.

Lemma read_after_commit_observes_published_value_witness :
  exists m' handle m'',
    update_cycles 4 6 [Z.add 100; Z.mul 2; fun _ => 7]
      (example_memory [11]%nat [10; 11; 12; 13]%nat 0) = Some m'
    /\ read 4 5 m' = Some (Some handle, m'')
    /\ value (heap m'' handle) = 7.
Proof.
  apply (read_after_commit_observes_published_value 4
           (example_memory [11]%nat [10; 11; 12; 13]%nat 0)
           [Z.add 100; Z.mul 2; fun _ => 7] 6).
  - repeat split; by vm_compute.
  - exists 0%nat. split; [simpl; lia|reflexivity].
  - simpl. lia.
Defined.

(** ** Readers and publisher interleaved: reference accounting *)

Section Accounting.

Context {V : Type}.
Variable BUFSZ : Z.

Implicit Types (m : Memory V) (r : reader) (ts : list reader) (p q : ptr)
  (s : System V).

Lemma references_app p ts1 ts2 :
  references p (ts1 ++ ts2) = (references p ts1 + references p ts2)%nat.
Proof.
  unfold references.
  by rewrite map_app, concat_app, List.filter_app, length_app.
Qed.

Lemma references_cons p r ts :
  references p (r :: ts) = (references p [r] + references p ts)%nat.
Proof. apply (references_app p [r] ts). Qed.

Lemma references_one p r :
  references p [r] = length (List.filter (Nat.eqb p) (owned r)).
Proof. unfold references. simpl. by rewrite app_nil_r. Qed.

Lemma references_one_le p r : (references p [r] <= 2)%nat.
Proof.
  rewrite references_one.
  destruct r as [|c [u|]|c [u|] raw|c [u|] raw|c [u|]|[u|]|]; simpl;
    repeat case_match; simpl; lia.
Qed.

Lemma references_le p ts : (references p ts <= 2 * length ts)%nat.
Proof.
  induction ts as [|r ts IH]; [done|].
  rewrite references_cons. pose proof (references_one_le p r). simpl. lia.
Qed.

(** Replacing one thread's state changes the total by that thread's share. *)
Lemma references_insert p ts (i : nat) r r' :
  ts !! i = Some r ->
  (references p (<[i := r']> ts) + references p [r]
   = references p ts + references p [r'])%nat.
Proof.
  intros Hi. pose proof (lookup_lt_Some _ _ _ Hi) as Hlt.
  rewrite <- (take_drop_middle ts i r Hi) at 2.
  rewrite insert_take_drop by done.
  rewrite !references_app, (references_cons p r (drop (S i) ts)),
    (references_cons p r' (drop (S i) ts)). lia.
Qed.

Lemma references_destroyed p ts :
  Forall (fun r => r = HandleDestroyed) ts -> references p ts = 0%nat.
Proof.
  induction 1 as [|r ts -> _ IH]; [done|].
  by rewrite references_cons, IH.
Qed.

(** One atomic action of a reader moves each count by exactly the change in
    what that reader holds. *)
Lemma reader_step_balance m r p :
  in_long (refCount_at p (heap m)) ->
  refCount_at p (heap (reader_step BUFSZ m r).1)
  = wrap_long (refCount_at p (heap m)
               + Z.of_nat (references p [(reader_step BUFSZ m r).2])
               - Z.of_nat (references p [r])).
Proof.
  intros Hrange. rewrite !references_one.
  assert (Hsame : forall c, refCount_at p (heap m)
                            = wrap_long (refCount_at p (heap m) + c - c)).
  { intros c. rewrite wrap_long_id; [lia|].
    by replace (refCount_at p (heap m) + c - c)
      with (refCount_at p (heap m)) by lia. }
  destruct r as [|c u|c u raw|c u raw|c u|u|]; simpl.
  - apply Hsame.
  - apply Hsame.
  - rewrite acquire_at_refCount.
    destruct (Nat.eqb_spec p raw); case_decide; subst; try congruence;
      simpl; try apply Hsame; f_equal; lia.
  - destruct u as [old|]; simpl; [rewrite release_at_refCount|].
    + destruct (Nat.eqb_spec p raw), (Nat.eqb_spec p old); case_decide;
        subst; try congruence; simpl; try apply Hsame; f_equal; lia.
    + destruct (Nat.eqb_spec p raw); apply Hsame.
  - destruct (m_head (rcu m) =? c); apply Hsame.
  - destruct u as [old|]; simpl; [rewrite release_at_refCount|apply Hsame].
    destruct (Nat.eqb_spec p old); case_decide; subst; try congruence;
      simpl; try apply Hsame; f_equal; lia.
  - apply Hsame.
Qed.

Lemma initUpdate_step_heap m pc : heap (initUpdate_step BUFSZ m pc).1 = heap m.
Proof. destruct pc; simpl; repeat case_match; done. Qed.

Lemma system_step_length s e :
  length (threads (system_step BUFSZ s e)) = length (threads s).
Proof.
  destruct e as [tid| |v|]; simpl.
  - destruct (threads s !! tid) as [r|]; [|done].
    destruct (reader_step BUFSZ (mem s) r). simpl. by rewrite length_insert.
  - by destruct (initUpdate_step BUFSZ (mem s) _).
  - by destruct (pub s).
  - by destruct (pub s).
Qed.

Lemma system_step_accounted s e :
  2 * Z.of_nat (length (threads s)) <= LONG_MAX ->
  accounted s -> accounted (system_step BUFSZ s e).
Proof.
  intros Hbound Hacc p.
  destruct e as [tid| |v|]; simpl.
  - destruct (threads s !! tid) as [r|] eqn:Hr; [|apply Hacc].
    pose proof (reader_step_balance (mem s) r p) as Hstep.
    destruct (reader_step BUFSZ (mem s) r) as [m' r']. simpl in *.
    pose proof (references_insert p (threads s) tid r r' Hr) as Hins.
    pose proof (references_le p (<[tid := r']> (threads s))) as Hle.
    rewrite length_insert in Hle.
    pose proof (references_le p (threads s)).
    rewrite Hstep, Hacc; [|rewrite Hacc; unfold in_long, LONG_MIN, LONG_MAX in *; lia].
    rewrite wrap_long_id; unfold in_long, LONG_MIN, LONG_MAX in *; lia.
  - pose proof (initUpdate_step_heap (mem s)
                  match pub s with InitReturned _ => PubIdle | pc => pc end)
      as Hheap.
    destruct (initUpdate_step BUFSZ (mem s) _) as [m' pc']. simpl in *.
    rewrite Hheap. apply Hacc.
  - destruct (pub s); try apply Hacc. simpl.
    rewrite assign_at_refCount. apply Hacc.
  - destruct (pub s); apply Hacc.
Qed.

Lemma system_run_accounted es s :
  2 * Z.of_nat (length (threads s)) <= LONG_MAX ->
  accounted s ->
  accounted (system_run BUFSZ es s)
  /\ length (threads (system_run BUFSZ es s)) = length (threads s).
Proof.
  revert s. induction es as [|e es IH]; intros s Hbound Hacc; [done|].
  change (system_run BUFSZ (e :: es) s)
    with (system_run BUFSZ es (system_step BUFSZ s e)).
  destruct (IH (system_step BUFSZ s e)) as [Hacc' Hlen'].
  - by rewrite system_step_length.
  - by apply system_step_accounted.
  - split; [done|]. by rewrite Hlen', system_step_length.
Qed.

End Accounting.

(** C4: [N] threads call [read()] while the publisher does whatever it does,
    in any interleaving of their atomic actions.  When a reader goes round
    its loop again, [ptr.reset(rawP)] gives back the discarded candidate
    once; the handle that [read()] returned gives its slot back once, when it
    is destroyed, and a destroyed handle gives back nothing more.  So every
    count always equals the number of references the threads hold at that
    moment: it is never negative, at any point of the run, and it is zero
    again once all handles are destroyed. *)
Theorem reads_are_refcount_balanced
    {V : Type} (BUFSZ : Z) (N : nat) (m : Memory V) (pc : publisher)
    (es : list (event V)) :
  2 * Z.of_nat N <= LONG_MAX ->
  (forall p, refCount_at p (heap m) = 0) ->
  let start := {| mem := m; pub := pc; threads := replicate N ReadEntry |} in
  let final := system_run BUFSZ es start in
  (forall (m1 : Memory V) curHead old rawP,
     let m2 := (reader_step BUFSZ m1 (ReadReset curHead (Some old) rawP)).1 in
     refCount_at old (heap m2) = wrap_long (refCount_at old (heap m1) - 1)
     /\ forall p, p <> old -> refCount_at p (heap m2) = refCount_at p (heap m1))
  /\ (forall (m1 : Memory V) held,
        let m2 := (reader_step BUFSZ m1 (ReadReturned (Some held))).1 in
        (reader_step BUFSZ m1 (ReadReturned (Some held))).2 = HandleDestroyed
        /\ refCount_at held (heap m2) = wrap_long (refCount_at held (heap m1) - 1)
        /\ (forall p, p <> held -> refCount_at p (heap m2) = refCount_at p (heap m1))
        /\ reader_step BUFSZ m2 HandleDestroyed = (m2, HandleDestroyed))
  /\ accounted final
  /\ (forall k p, 0 <= refCount_at p (heap (mem (system_run BUFSZ (take k es) start))))
  /\ (Forall (fun r => r = HandleDestroyed) (threads final) ->
      forall p, refCount_at p (heap (mem final)) = 0).
Proof.
  intros Hbound Hzero start final.
  assert (Hstart : accounted start).
  { intros p. simpl. rewrite Hzero.
    assert (references p (replicate N (@ReadEntry)) = 0%nat) as ->; [|done].
    clear. induction N as [|n IH]; [done|].
    simpl. by rewrite references_cons, IH. }
  assert (Hlen : 2 * Z.of_nat (length (threads start)) <= LONG_MAX).
  { simpl. by rewrite length_replicate. }
  split; [|split; [|split; [|split]]].
  - intros m1 curHead old rawP m2. subst m2. simpl.
    rewrite release_at_refCount. case_decide; [|done]. split; [done|].
    intros p Hp. rewrite release_at_refCount. by case_decide.
  - intros m1 held m2. subst m2. simpl. split; [done|].
    rewrite release_at_refCount. case_decide; [|done]. split; [done|].
    split; [|done]. intros p Hp. rewrite release_at_refCount. by case_decide.
  - by apply system_run_accounted.
  - intros k p.
    destruct (system_run_accounted BUFSZ (take k es) start Hlen Hstart)
      as [Hacc _].
    rewrite Hacc. lia.
  - intros Hdone p.
    destruct (system_run_accounted BUFSZ es start Hlen Hstart) as [Hacc _].
    fold final in Hacc. by rewrite Hacc, references_destroyed.
Qed.

Lemma reads_are_refcount_balanced_witness :
  threads (system_run 4 example_schedule
             {| mem := example_memory []%nat [10; 11; 12; 13]%nat 0;
                pub := PubIdle; threads := replicate 2 ReadEntry |})
  = [HandleDestroyed; HandleDestroyed]
  /\ forall p,
       refCount_at p
         (heap (mem (system_run 4 example_schedule
                       {| mem := example_memory []%nat [10; 11; 12; 13]%nat 0;
                          pub := PubIdle; threads := replicate 2 ReadEntry |})))
       = 0.
Proof.
  assert (Hthreads :
    threads (system_run 4 example_schedule
               {| mem := example_memory []%nat [10; 11; 12; 13]%nat 0;
                  pub := PubIdle; threads := replicate 2 ReadEntry |})
    = [HandleDestroyed; HandleDestroyed]) by (vm_compute; reflexivity).
  split; [exact Hthreads|].
  destruct (reads_are_refcount_balanced 4 2
              (example_memory []%nat [10; 11; 12; 13]%nat 0) PubIdle
              example_schedule) as (_ & _ & _ & _ & Hzero).
  - by vm_compute.
  - intros p. reflexivity.
  - apply Hzero. rewrite Hthreads. by repeat constructor.
Defined.

(** * Further properties of the code *)

(** ** RcuDataItem: calls commute *)

Lemma do_call_comm c1 c2 this :
  do_call c1 (do_call c2 this) = do_call c2 (do_call c1 this).
Proof.
  destruct this as [n]. destruct c1, c2; try done;
    unfold do_call, acquire, release; simpl; f_equal.
  - rewrite wrap_long_add_l.
    replace (wrap_long (n + 1) - 1) with (wrap_long (n + 1) + (-1)) by lia.
    rewrite wrap_long_add_l. f_equal. lia.
  - replace (wrap_long (n + 1) - 1) with (wrap_long (n + 1) + (-1)) by lia.
    rewrite wrap_long_add_l, wrap_long_add_l. f_equal. lia.
Qed.

Lemma do_calls_cons c cs this :
  do_calls (c :: cs) this = do_calls cs (do_call c this).
Proof. done. Qed.

Lemma do_calls_perm cs1 cs2 :
  cs1 ≡ₚ cs2 -> forall this, do_calls cs1 this = do_calls cs2 this.
Proof.
  induction 1 as [|c cs1 cs2 _ IH|c1 c2 cs|cs1 cs2 cs3 _ IH1 _ IH2];
    intros this.
  - done.
  - by rewrite !do_calls_cons, IH.
  - by rewrite !do_calls_cons, do_call_comm.
  - by rewrite IH1, IH2.
Qed.

(** X1: the state of an item after a batch of [acquire()] and [release()]
    calls does not depend on the order in which the calls are made, whatever
    the count it started with. *)
Theorem refcount_calls_commute (cs1 cs2 : list item_call) (this : RcuDataItem) :
  cs1 ≡ₚ cs2 -> do_calls cs1 this = do_calls cs2 this.
Proof. intros Hperm. by apply do_calls_perm. Qed.

Lemma refcount_calls_commute_witness :
  do_calls [CallAcquire; CallRelease; CallAcquire] {| m_refCounter := LONG_MAX |}
  = do_calls [CallAcquire; CallAcquire; CallRelease] {| m_refCounter := LONG_MAX |}.
Proof.
  apply (refcount_calls_commute [CallAcquire; CallRelease; CallAcquire]
           [CallAcquire; CallAcquire; CallRelease]).
  apply perm_skip, perm_swap.
Defined.

(** ** Construction: the number of supplied instances is not checked *)

(** X2: the constructor copies what it is given without comparing its number
    with the capacity.  A range that is not longer than the array fills its
    front and leaves the remaining entries with their indeterminate content;
    a longer range is written past the end of the array. *)
Theorem ctor_does_not_check_the_range
    (BUFSZ : Z) (uninit range : list ptr) :
  static_assert_BUFSZ BUFSZ = true ->
  Z.of_nat (length uninit) = BUFSZ ->
  (Z.of_nat (length range) <= BUFSZ ->
     exists r, RcuDataNoWait_ctor BUFSZ uninit range = Constructed r
               /\ m_head r = 0
               /\ Z.of_nat (length (m_data r)) = BUFSZ
               /\ (forall i : nat, (i < length range)%nat ->
                     m_data r !! i = range !! i)
               /\ (forall i : nat, (length range <= i)%nat ->
                     m_data r !! i = uninit !! i))
  /\ (BUFSZ < Z.of_nat (length range) ->
        RcuDataNoWait_ctor BUFSZ uninit range = WritesPastEnd).
Proof.
  intros Hassert Hlen. unfold RcuDataNoWait_ctor. rewrite Hassert. simpl.
  split.
  - intros Hshort.
    destruct (Z.ltb_spec BUFSZ (Z.of_nat (length range))) as [Hlt|_]; [lia|].
    eexists. split; [done|]. simpl. repeat split.
    + rewrite length_app, length_drop. lia.
    + intros i Hi. by apply lookup_app_l.
    + intros i Hi. rewrite lookup_app_r by done. rewrite lookup_drop.
      f_equal. lia.
  - intros Hlong.
    by destruct (Z.ltb_spec BUFSZ (Z.of_nat (length range))) as [_|Hge]; [|lia].
Qed.

Lemma ctor_does_not_check_the_range_witness :
  (exists r, RcuDataNoWait_ctor 4 [0; 1; 2; 3]%nat [10; 11]%nat = Constructed r
             /\ m_data r = [10; 11; 2; 3]%nat)
  /\ RcuDataNoWait_ctor 2 [0; 1]%nat [10; 11; 12]%nat = WritesPastEnd.
Proof.
  split.
  - destruct (ctor_does_not_check_the_range 4 [0; 1; 2; 3]%nat [10; 11]%nat)
      as [Hshort _]; [reflexivity..|].
    destruct Hshort as (r & Hr & _); [simpl; lia|].
    exists r. split; [exact Hr|].
    vm_compute in Hr. by injection Hr as <-.
  - destruct (ctor_does_not_check_the_range 2 [0; 1]%nat [10; 11; 12]%nat)
      as [_ Hlong]; [reflexivity..|].
    apply Hlong. simpl. lia.
Defined.

(** ** Indices and the head *)

(** X3: in a well-formed ring the index computed from any position, negative
    ones included, lies inside the array, so the pointer that
    [publisherRead()] returns and the pointer that [read()] fetches are
    slots of the ring. *)
Theorem every_index_is_in_bounds
    {V : Type} (BUFSZ : Z) (m : Memory V) :
  wf BUFSZ (rcu m) ->
  (forall pos : Z, (slot BUFSZ pos < length (m_data (rcu m)))%nat)
  /\ publisherRead BUFSZ m ∈ m_data (rcu m)
  /\ (forall curHead u, exists rawP,
        reader_step BUFSZ m (ReadFetch curHead u)
        = (m, ReadAcquire curHead u rawP)
        /\ rawP ∈ m_data (rcu m)).
Proof.
  intros Hwf.
  assert (Hin : forall pos, m_data (rcu m) !!! slot BUFSZ pos ∈ m_data (rcu m)).
  { intros pos. apply list_elem_of_lookup_total_2. by apply wf_slot_lt. }
  split; [intros pos; by apply wf_slot_lt|]. split; [apply Hin|].
  intros curHead u. eexists. split; [done|]. apply Hin.
Qed.

Lemma every_index_is_in_bounds_witness :
  (slot 4 LONG_MIN < 4)%nat /\ (slot 4 (-1) < 4)%nat.
Proof.
  destruct (every_index_is_in_bounds 4
              (example_memory []%nat [10; 11; 12; 13]%nat 0)) as [Hlt _].
  - repeat split; by vm_compute.
  - split; [apply (Hlt LONG_MIN)|apply (Hlt (-1))].
Defined.

Lemma iter_commit_data {V : Type} (m : Memory V) (n : nat) :
  m_data (rcu (Nat.iter n commitUpdate m)) = m_data (rcu m)
  /\ heap (Nat.iter n commitUpdate m) = heap m.
Proof. induction n as [|n [IH1 IH2]]; [done|]. simpl. by rewrite IH1, IH2. Qed.

Lemma iter_commit_slot {V : Type} (BUFSZ : Z) (m : Memory V) (n : nat) :
  is_size_t BUFSZ -> static_assert_BUFSZ BUFSZ = true ->
  slot BUFSZ (m_head (rcu (Nat.iter n commitUpdate m)))
  = slot BUFSZ (m_head (rcu m) + Z.of_nat n).
Proof.
  intros Hsize Hassert. induction n as [|n IH].
  - simpl. f_equal. lia.
  - change (Nat.iter (S n) commitUpdate m)
      with (commitUpdate (Nat.iter n commitUpdate m)).
    cbn [commitUpdate rcu m_head]. rewrite slot_wrap.
    apply slot_eq_iff in IH; [|done..]. apply slot_eq_iff; [done..|].
    rewrite <- IH. f_equal. lia.
Qed.

(** X4: each [commitUpdate()] moves the published index to the next one
    modulo [BUFSZ], also when the head counter wraps around at the largest
    [long]; after [n] commits the published slot is the one [n] positions
    further round the ring, the array and the objects being left alone. *)
Theorem commit_advances_round_the_ring
    {V : Type} (BUFSZ : Z) (m : Memory V) (n : nat) :
  wf BUFSZ (rcu m) ->
  publisherRead BUFSZ (Nat.iter n commitUpdate m)
  = m_data (rcu m) !!! Z.to_nat ((m_head (rcu m) + Z.of_nat n) mod BUFSZ)
  /\ m_data (rcu (Nat.iter n commitUpdate m)) = m_data (rcu m)
  /\ heap (Nat.iter n commitUpdate m) = heap m
  /\ publisherRead BUFSZ (Nat.iter (n + Z.to_nat BUFSZ) commitUpdate m)
     = publisherRead BUFSZ (Nat.iter n commitUpdate m).
Proof.
  intros Hwf. pose proof Hwf as (Hsize & Hassert & Hlen).
  pose proof (BUFSZ_pos BUFSZ Hsize Hassert) as Hpos.
  destruct (iter_commit_data m n) as [Hdata Hheap].
  destruct (iter_commit_data m (n + Z.to_nat BUFSZ)) as [Hdata' _].
  unfold publisherRead.
  rewrite Hdata, Hdata', !iter_commit_slot, <- (slot_mod BUFSZ) by done.
  repeat split; [done..|].
  f_equal. apply slot_eq_iff; [done..|].
  replace (m_head (rcu m) + Z.of_nat (n + Z.to_nat BUFSZ)
           - (m_head (rcu m) + Z.of_nat n)) with (1 * BUFSZ) by lia.
  by apply Z.mod_mul; lia.
Qed.

Lemma commit_advances_round_the_ring_witness :
  publisherRead 4 (Nat.iter 3 commitUpdate
                     (example_memory []%nat [10; 11; 12; 13]%nat LONG_MAX))
  = 12%nat.
Proof.
  destruct (commit_advances_round_the_ring 4
              (example_memory []%nat [10; 11; 12; 13]%nat LONG_MAX) 3)
    as [Hpub _].
  - repeat split; by vm_compute.
  - rewrite Hpub. by vm_compute.
Defined.

(** ** read() run alone, and the handle it returns *)

Lemma T_eta {V : Type} (t : T V) : {| base := base t; value := value t |} = t.
Proof. by destruct t. Qed.

Lemma RcuDataItem_eta (i : RcuDataItem) : {| m_refCounter := m_refCounter i |} = i.
Proof. by destruct i. Qed.

Lemma release_at_acquire_at {V : Type} (h : store V) (p q : ptr) :
  in_long (refCount_at p h) ->
  release_at p (acquire_at p h) q = h q.
Proof.
  intros Hrange. unfold release_at, acquire_at.
  destruct (decide (p = q)) as [->|Hne].
  - rewrite !store_insert_eq. simpl.
    rewrite release_acquire by done. apply T_eta.
  - by rewrite !store_insert_ne.
Qed.

(** X5: a [read()] that is not overtaken by a commit goes through its loop
    once.  It returns a non-null handle to the slot that [publisherRead()]
    designates, raises the count of that slot by one, and changes neither
    the ring, nor any payload, nor the count of any other slot. *)
Theorem read_alone_takes_one_reference
    {V : Type} (BUFSZ : Z) (m : Memory V) (fuel : nat) :
  (5 <= fuel)%nat ->
  in_long (refCount_at (publisherRead BUFSZ m) (heap m) + 1) ->
  exists m',
    read BUFSZ fuel m = Some (Some (publisherRead BUFSZ m), m')
    /\ rcu m' = rcu m
    /\ refCount_at (publisherRead BUFSZ m) (heap m')
       = refCount_at (publisherRead BUFSZ m) (heap m) + 1
    /\ (forall q, q <> publisherRead BUFSZ m -> heap m' q = heap m q)
    /\ (forall q, value (heap m' q) = value (heap m q)).
Proof.
  intros Hfuel Hrange. eexists. split; [by apply read_alone|]. simpl.
  split; [done|]. split; [|split].
  - rewrite acquire_at_refCount. case_decide; [|done]. by apply wrap_long_id.
  - intros q Hq. unfold acquire_at. by apply store_insert_ne.
  - intros q. apply acquire_at_value.
Qed.

Lemma read_alone_takes_one_reference_witness :
  exists m',
    read 4 5 (example_memory [11]%nat [10; 11; 12; 13]%nat 1)
    = Some (Some 11%nat, m')
    /\ refCount_at 11%nat (heap m') = 2.
Proof.
  destruct (read_alone_takes_one_reference 4
              (example_memory [11]%nat [10; 11; 12; 13]%nat 1) 5)
    as (m' & Hread & _ & Hcount & _).
  - lia.
  - by vm_compute.
  - exists m'. split; [exact Hread|exact Hcount].
Defined.

(** X6: taking a handle with [read()] and destroying it brings the memory
    back to what it was: every object, count included, and the ring. *)
Theorem read_then_destroy_restores_memory
    {V : Type} (BUFSZ : Z) (m : Memory V) (fuel : nat) :
  (5 <= fuel)%nat ->
  in_long (refCount_at (publisherRead BUFSZ m) (heap m)) ->
  exists handle m',
    read BUFSZ fuel m = Some (handle, m')
    /\ rcu (destroy_handle handle m') = rcu m
    /\ forall q, heap (destroy_handle handle m') q = heap m q.
Proof.
  intros Hfuel Hrange. eexists _, _. split; [by apply read_alone|].
  split; [done|]. intros q. simpl. by apply release_at_acquire_at.
Qed.

Lemma read_then_destroy_restores_memory_witness :
  exists handle m',
    read 4 5 (example_memory [11]%nat [10; 11; 12; 13]%nat 1)
    = Some (handle, m')
    /\ forall q, heap (destroy_handle handle m') q
                 = heap (example_memory [11]%nat [10; 11; 12; 13]%nat 1) q.
Proof.
  destruct (read_then_destroy_restores_memory 4
              (example_memory [11]%nat [10; 11; 12; 13]%nat 1) 5)
    as (handle & m' & Hread & _ & Hheap).
  - lia.
  - by vm_compute.
  - exists handle, m'. split; [exact Hread|exact Hheap].
Defined.

(** ** initUpdate: what the scan returns *)

Section ScanFacts.

Context {V : Type}.
Variable BUFSZ : Z.
Variable m : Memory V.
Hypothesis Hwf : wf BUFSZ (rcu m).

(** The scan stops within one turn of the ring. *)
Lemma scan_stops_within_a_turn pos (d : nat) :
  (forall j : nat, (j < d)%nat ->
     slot_refCount m (slot BUFSZ (pos + Z.of_nat j)) <> 0) ->
  slot_refCount m (slot BUFSZ (pos + Z.of_nat d)) = 0 ->
  (d < Z.to_nat BUFSZ)%nat.
Proof.
  intros Hbefore Hfree.
  destruct (wf_slot_reach BUFSZ m Hwf pos (slot BUFSZ (pos + Z.of_nat d)))
    as (e & He & Heq); [by apply wf_slot_lt|].
  destruct (decide (e < d)%nat) as [Hlt|Hge]; [|lia].
  destruct (Hbefore e Hlt). by rewrite Heq.
Qed.

(** When a slot other than the published one is free, the scan stops before
    it comes round to the published one. *)
Lemma scan_stops_before_head (d : nat) :
  (forall j : nat, (j < d)%nat ->
     slot_refCount m (slot BUFSZ (m_head (rcu m) + 1 + Z.of_nat j)) <> 0) ->
  (exists i : nat, (i < length (m_data (rcu m)))%nat
                   /\ i <> slot BUFSZ (m_head (rcu m))
                   /\ slot_refCount m i = 0) ->
  slot BUFSZ (m_head (rcu m) + 1 + Z.of_nat d) <> slot BUFSZ (m_head (rcu m)).
Proof.
  intros Hbefore (i & Hi & Hnothead & Hi0) Hsame.
  destruct Hwf as (Hsize & Hassert & Hlen).
  pose proof (BUFSZ_pos BUFSZ Hsize Hassert) as Hpos.
  set (head := m_head (rcu m)) in *.
  apply slot_eq_iff in Hsame; [|done..].
  replace (head + 1 + Z.of_nat d - head) with (1 + Z.of_nat d) in Hsame by lia.
  assert (BUFSZ <= 1 + Z.of_nat d) as Hd.
  { destruct (decide (BUFSZ <= 1 + Z.of_nat d)); [done|].
    rewrite Z.mod_small in Hsame; lia. }
  destruct (slot_reach BUFSZ Hsize Hassert (head + 1) i) as (e & He & Hei);
    [lia|].
  destruct (decide (e < d)%nat) as [Hlt|Hge].
  - apply (Hbefore e Hlt). by rewrite Hei.
  - assert (e = d) as -> by lia.
    apply Hnothead. rewrite <- Hei.
    apply slot_eq_iff; [done..|].
    by replace (head + 1 + Z.of_nat d - head) with (1 + Z.of_nat d) by lia.
Qed.

(** The slot after the head differs from the head's in a ring of two or more. *)
Lemma next_slot_differs :
  2 <= BUFSZ ->
  slot BUFSZ (m_head (rcu m) + 1) <> slot BUFSZ (m_head (rcu m)).
Proof.
  intros Htwo Hsame. destruct Hwf as (Hsize & Hassert & Hlen).
  apply slot_eq_iff in Hsame; [|done..].
  replace (m_head (rcu m) + 1 - m_head (rcu m)) with 1 in Hsame by lia.
  rewrite Z.mod_small in Hsame; lia.
Qed.

End ScanFacts.

(** X7: [initUpdate()] is first-fit.  The slot it returns is the first one
    with count zero in the order [head+1], [head+2], ... round the ring, all
    the slots tested before it being referenced; it is found within one turn
    of the ring, and when the slot after the head is free nothing is
    swapped. *)
Theorem initUpdate_is_first_fit
    {V : Type} (BUFSZ : Z) (m : Memory V) (fuel : nat) (p : ptr) (m' : Memory V) :
  wf BUFSZ (rcu m) ->
  initUpdate BUFSZ fuel m = Some (p, m') ->
  exists d : nat,
    (d < Z.to_nat BUFSZ)%nat
    /\ p = m_data (rcu m) !!! slot BUFSZ (m_head (rcu m) + 1 + Z.of_nat d)
    /\ refCount_at p (heap m) = 0
    /\ (forall j : nat, (j < d)%nat ->
          refCount_at (m_data (rcu m)
                         !!! slot BUFSZ (m_head (rcu m) + 1 + Z.of_nat j))
                      (heap m) <> 0)
    /\ (d = 0%nat -> m' = m).
Proof.
  intros Hwf Hinit.
  destruct (initUpdate_returns_found BUFSZ m Hwf fuel p m' Hinit)
    as (d & Hbefore & Hfree & -> & ->).
  exists d. split; [by eapply scan_stops_within_a_turn|].
  split; [done|]. split; [done|]. split; [done|].
  intros ->. rewrite Z.add_0_r. apply swap_in_same.
Qed.

Lemma initUpdate_is_first_fit_witness :
  exists d : nat,
    (d < 4)%nat
    /\ 13%nat = m_data (rcu (example_memory [11; 12]%nat [10; 11; 12; 13]%nat 0))
                  !!! slot 4 (0 + 1 + Z.of_nat d).
Proof.
  destruct (initUpdate_is_first_fit 4
              (example_memory [11; 12]%nat [10; 11; 12; 13]%nat 0) 6 13%nat
              (example_memory [11; 12]%nat [10; 13; 12; 11]%nat 0))
    as (d & Hd & Hp & _).
  - repeat split; by vm_compute.
  - reflexivity.
  - exists d. split; [exact Hd|exact Hp].
Defined.

(** X8: calling [initUpdate()] again without a commit in between gives the
    same slot again and changes nothing: the slot found by the first call
    already sits after the head. *)
Theorem initUpdate_again_returns_same_slot
    {V : Type} (BUFSZ : Z) (m : Memory V) (fuel : nat) (p : ptr) (m' : Memory V) :
  wf BUFSZ (rcu m) ->
  initUpdate BUFSZ fuel m = Some (p, m') ->
  initUpdate BUFSZ fuel m' = Some (p, m').
Proof.
  intros Hwf Hinit.
  destruct (initUpdate_returns BUFSZ fuel m p m' Hinit) as (d & Hfuel & _).
  destruct (initUpdate_returns_found BUFSZ m Hwf fuel p m' Hinit)
    as (d' & _ & Hfree & _ & Hp).
  destruct (initUpdate_effect BUFSZ m Hwf fuel p m' Hinit)
    as (Hat & _ & _ & Hheap & Hhead).
  apply list_lookup_total_correct in Hat.
  destruct fuel as [|[|fuel]]; [lia..|].
  unfold initUpdate. cbn [initUpdate_run initUpdate_step].
  rewrite Hhead, slot_wrap. unfold slot_refCount. rewrite Hat, Hheap.
  subst p. unfold slot_refCount in Hfree. rewrite Hfree. simpl.
  by destruct fuel.
Qed.

Lemma initUpdate_again_returns_same_slot_witness :
  initUpdate 4 6 (example_memory [11; 12]%nat [10; 13; 12; 11]%nat 0)
  = Some (13%nat, example_memory [11; 12]%nat [10; 13; 12; 11]%nat 0).
Proof.
  apply (initUpdate_again_returns_same_slot 4
           (example_memory [11; 12]%nat [10; 11; 12; 13]%nat 0) 6 13%nat
           (example_memory [11; 12]%nat [10; 13; 12; 11]%nat 0)).
  - repeat split; by vm_compute.
  - reflexivity.
Defined.

(** ** What staging and publishing change *)

(** X9: staging is invisible as long as some slot other than the published
    one is free: after [initUpdate()] the published pointer is what it was.
    When only the published slot is free, in a ring of two or more distinct
    slots, [initUpdate()] swaps it away from the head position: before any
    commit the published pointer has become the referenced slot that stood
    after the head. *)
Theorem initUpdate_and_the_published_pointer
    {V : Type} (BUFSZ : Z) (m : Memory V) (fuel : nat) (p : ptr) (m' : Memory V) :
  wf BUFSZ (rcu m) ->
  NoDup (m_data (rcu m)) ->
  initUpdate BUFSZ fuel m = Some (p, m') ->
  ((exists i : nat, (i < length (m_data (rcu m)))%nat
                    /\ i <> slot BUFSZ (m_head (rcu m))
                    /\ slot_refCount m i = 0) ->
   publisherRead BUFSZ m' = publisherRead BUFSZ m)
  /\ ((forall i : nat, (i < length (m_data (rcu m)))%nat ->
         i <> slot BUFSZ (m_head (rcu m)) -> slot_refCount m i <> 0) ->
      2 <= BUFSZ ->
      publisherRead BUFSZ m' <> publisherRead BUFSZ m
      /\ publisherRead BUFSZ m'
         = m_data (rcu m) !!! slot BUFSZ (m_head (rcu m) + 1)
      /\ refCount_at (publisherRead BUFSZ m') (heap m') <> 0).
Proof.
  intros Hwf Hnodup Hinit.
  destruct (initUpdate_returns_found BUFSZ m Hwf fuel p m' Hinit)
    as (d & Hbefore & Hfree & -> & _).
  set (head := m_head (rcu m)) in *.
  pose proof (wf_slot_lt BUFSZ m Hwf (head + 1 + Z.of_nat d)) as Hfound.
  pose proof (wf_slot_lt BUFSZ m Hwf (head + 1)) as Hfirst.
  pose proof (wf_slot_lt BUFSZ m Hwf head) as Hhead.
  unfold publisherRead. cbn [swap_in rcu m_data m_head heap]. fold head.
  split.
  - intros Hother.
    pose proof (scan_stops_before_head BUFSZ m Hwf d Hbefore Hother) as Hne.
    assert (2 <= BUFSZ) as Htwo.
    { destruct Hother as (i & Hi & Hnot & _). destruct Hwf as (_ & _ & Hlen).
      fold head in Hnot. lia. }
    pose proof (next_slot_differs BUFSZ m Hwf Htwo) as Hne'. fold head in Hne, Hne'.
    rewrite !list_lookup_total_alt. f_equal. by apply swap_slots_other.
  - intros Hothers Htwo.
    pose proof (next_slot_differs BUFSZ m Hwf Htwo) as Hne'. fold head in Hne'.
    assert (slot BUFSZ (head + 1 + Z.of_nat d) = slot BUFSZ head) as Hsame.
    { destruct (decide (slot BUFSZ (head + 1 + Z.of_nat d) = slot BUFSZ head))
        as [|Hne]; [done|]. by destruct (Hothers _ Hfound Hne). }
    rewrite Hsame, swap_slots_second by done.
    split; [|split; [done|]].
    + intros Heq. apply Hne'.
      eapply NoDup_lookup; [done|by apply list_lookup_lookup_total_lt|].
      rewrite Heq. by apply list_lookup_lookup_total_lt.
    + by apply Hothers.
Qed.

Lemma initUpdate_and_the_published_pointer_witness :
  publisherRead 4 (example_memory [10; 11; 12]%nat [13; 11; 12; 10]%nat 3)
  <> publisherRead 4 (example_memory [10; 11; 12]%nat [10; 11; 12; 13]%nat 3).
Proof.
  destruct (initUpdate_and_the_published_pointer 4
              (example_memory [10; 11; 12]%nat [10; 11; 12; 13]%nat 3) 6 13%nat
              (example_memory [10; 11; 12]%nat [13; 11; 12; 10]%nat 3))
    as [_ Hwrap].
  - repeat split; by vm_compute.
  - apply (bool_decide_unpack _). by vm_compute.
  - reflexivity.
  - destruct Hwrap as [Hchanged _]; [|lia|exact Hchanged].
    intros i Hi Hne. destruct i as [|[|[|[|i]]]].
    + by vm_compute.
    + by vm_compute.
    + by vm_compute.
    + exfalso. by apply Hne.
    + simpl in Hi. lia.
Defined.

(** X10: an update cycle writes one object only, the slot it publishes: all
    other objects and all counts are as before.  When some slot other than
    the published one was free, the slot published before the cycle is
    among the untouched ones, so a reader still holding it keeps seeing the
    previous value. *)
Theorem update_cycle_writes_published_slot_only
    {V : Type} (BUFSZ : Z) (m : Memory V) (fuel : nat) (mutate : V -> V)
    (m' : Memory V) :
  wf BUFSZ (rcu m) ->
  NoDup (m_data (rcu m)) ->
  update_cycle BUFSZ fuel mutate m = Some m' ->
  (forall q, q <> publisherRead BUFSZ m' -> heap m' q = heap m q)
  /\ (forall q, refCount_at q (heap m') = refCount_at q (heap m))
  /\ refCount_at (publisherRead BUFSZ m') (heap m) = 0
  /\ ((exists i : nat, (i < length (m_data (rcu m)))%nat
                       /\ i <> slot BUFSZ (m_head (rcu m))
                       /\ slot_refCount m i = 0) ->
      publisherRead BUFSZ m' <> publisherRead BUFSZ m
      /\ heap m' (publisherRead BUFSZ m) = heap m (publisherRead BUFSZ m)).
Proof.
  intros Hwf Hnodup Hcycle.
  destruct (update_cycle_publishes BUFSZ fuel mutate m m' Hwf Hcycle)
    as (_ & _ & Hcount & _).
  unfold update_cycle in Hcycle.
  destruct (initUpdate BUFSZ fuel m) as [[p m1]|] eqn:Hinit; [|done].
  injection Hcycle as <-.
  destruct (initUpdate_effect BUFSZ m Hwf fuel p m1 Hinit)
    as (Hat & _ & _ & Hheap & Hhead).
  destruct (initUpdate_returns_found BUFSZ m Hwf fuel p m1 Hinit)
    as (d & Hbefore & Hfree & _ & Hp).
  match goal with
  | |- context [publisherRead BUFSZ ?mc] =>
      assert (publisherRead BUFSZ mc = p) as Hpub
  end.
  { unfold publisherRead. simpl. rewrite Hhead, slot_wrap.
    by apply list_lookup_total_correct. }
  rewrite Hpub.
  assert (Hframe : forall q, q <> p ->
            heap (commitUpdate (with_heap m1 (assign_at p
                    {| base := RcuDataItem_default;
                       value := mutate (value (heap m (publisherRead BUFSZ m))) |}
                    (heap m1)))) q = heap m q).
  { intros q Hq. simpl. rewrite assign_at_other by done. by rewrite Hheap. }
  split; [done|]. split; [done|]. split; [by subst p|].
  intros Hother.
  pose proof (scan_stops_before_head BUFSZ m Hwf d Hbefore Hother) as Hne.
  assert (p <> publisherRead BUFSZ m) as Hnew.
  { subst p. unfold publisherRead. intros Heq. apply Hne.
    eapply NoDup_lookup; [done| |].
    - apply list_lookup_lookup_total_lt. by apply wf_slot_lt.
    - rewrite Heq. apply list_lookup_lookup_total_lt. by apply wf_slot_lt. }
  split; [done|]. apply Hframe. congruence.
Qed.

Lemma update_cycle_writes_published_slot_only_witness :
  exists m',
    update_cycle 4 6 (Z.add 100) (example_memory [10]%nat [10; 11; 12; 13]%nat 0)
    = Some m'
    /\ heap m' 10%nat = heap (example_memory [10]%nat [10; 11; 12; 13]%nat 0) 10%nat.
Proof.
  destruct (update_cycle 4 6 (Z.add 100)
              (example_memory [10]%nat [10; 11; 12; 13]%nat 0))
    as [m'|] eqn:Hcycle; [|by vm_compute in Hcycle].
  exists m'. split; [reflexivity|].
  destruct (update_cycle_writes_published_slot_only 4
              (example_memory [10]%nat [10; 11; 12; 13]%nat 0) 6 (Z.add 100) m')
    as (_ & _ & _ & Hold).
  - repeat split; by vm_compute.
  - apply (bool_decide_unpack _). by vm_compute.
  - exact Hcycle.
  - destruct Hold as [_ Hkept]; [|exact Hkept].
    exists 1%nat. repeat split; [simpl; lia|by vm_compute].
Defined.

(** X11: without readers the ring is used round robin.  When no slot is
    referenced, each update cycle takes the slot after the head without
    swapping anything: after any number of cycles the array is in its
    original order, all counts are still zero, and the published slot is the
    one that many positions further round the ring. *)
Theorem cycles_without_readers_go_round_robin
    {V : Type} (BUFSZ : Z) (m : Memory V) (mutations : list (V -> V))
    (fuel : nat) :
  wf BUFSZ (rcu m) ->
  (forall p, refCount_at p (heap m) = 0) ->
  (2 <= fuel)%nat ->
  exists m',
    update_cycles BUFSZ fuel mutations m = Some m'
    /\ m_data (rcu m') = m_data (rcu m)
    /\ (forall p, refCount_at p (heap m') = 0)
    /\ publisherRead BUFSZ m'
       = m_data (rcu m)
           !!! Z.to_nat ((m_head (rcu m) + Z.of_nat (length mutations))
                         mod BUFSZ).
Proof.
  intros Hwf Hzero Hfuel.
  destruct Hwf as (Hsize & Hassert & _).
  rewrite <- (slot_mod BUFSZ Hsize Hassert). unfold publisherRead.
  revert m Hzero. induction mutations as [|f rest IH]; intros m Hzero.
  - exists m. repeat split; [done|]. simpl. do 2 f_equal. lia.
  - assert (Hinit : initUpdate BUFSZ fuel m
              = Some (m_data (rcu m) !!! slot BUFSZ (m_head (rcu m) + 1), m)).
    { destruct fuel as [|[|fuel]]; [lia..|].
      unfold initUpdate. cbn [initUpdate_run initUpdate_step].
      unfold slot_refCount. rewrite Hzero, slot_wrap. simpl. by destruct fuel. }
    cbn [update_cycles]. unfold update_cycle. rewrite Hinit.
    match goal with
    | |- context [update_cycles BUFSZ fuel rest ?mc] =>
        destruct (IH mc) as (m' & Hrun & Hdata & Hzero' & Hpub)
    end.
    { intros p. simpl. by rewrite assign_at_refCount. }
    exists m'. split; [done|]. split; [done|]. split; [done|].
    rewrite Hpub. cbn [commitUpdate with_heap rcu m_data m_head].
    f_equal. rewrite slot_wrap_add. f_equal. simpl length. lia.
Qed.

Lemma cycles_without_readers_go_round_robin_witness :
  exists m',
    update_cycles 4 2 [Z.add 1; Z.add 2; Z.add 3; Z.add 4; Z.add 5]
      (example_memory []%nat [10; 11; 12; 13]%nat 0) = Some m'
    /\ m_data (rcu m') = [10; 11; 12; 13]%nat
    /\ publisherRead 4 m' = 11%nat.
Proof.
  destruct (cycles_without_readers_go_round_robin 4
              (example_memory []%nat [10; 11; 12; 13]%nat 0)
              [Z.add 1; Z.add 2; Z.add 3; Z.add 4; Z.add 5] 2)
    as (m' & Hrun & Hdata & _ & Hpub).
  - repeat split; by vm_compute.
  - intros p. reflexivity.
  - lia.
  - exists m'. split; [exact Hrun|]. split; [exact Hdata|].
    rewrite Hpub. by vm_compute.
Defined.

(** ** Interleavings: what no schedule can do *)

Section Interleavings.

Context {V : Type}.
Variable BUFSZ : Z.

Implicit Types (m : Memory V) (r : reader) (s : System V) (e : event V)
  (es : list (event V)).

Lemma system_run_cons e es s :
  system_run BUFSZ (e :: es) s = system_run BUFSZ es (system_step BUFSZ s e).
Proof. done. Qed.

Lemma reader_step_rcu m r : rcu (reader_step BUFSZ m r).1 = rcu m.
Proof. destruct r; simpl; try done. by case_match. Qed.

Lemma run_deleter_value (h : store V) u q :
  value (run_deleter u h q) = value (h q).
Proof.
  destruct u as [old|]; [|done]. simpl. unfold release_at.
  destruct (decide (old = q)) as [->|Hne].
  - by rewrite store_insert_eq.
  - by rewrite store_insert_ne.
Qed.

Lemma reader_step_value m r q :
  value (heap (reader_step BUFSZ m r).1 q) = value (heap m q).
Proof.
  destruct r; simpl; try done.
  - apply acquire_at_value.
  - apply run_deleter_value.
  - by case_match.
  - apply run_deleter_value.
Qed.

(** An action of a reader leaves the ring, the payloads and the publisher. *)
Lemma reader_event_frame s tid :
  rcu (mem (system_step BUFSZ s (EvReader tid))) = rcu (mem s)
  /\ (forall q, value (heap (mem (system_step BUFSZ s (EvReader tid))) q)
                = value (heap (mem s) q))
  /\ pub (system_step BUFSZ s (EvReader tid)) = pub s.
Proof.
  simpl. destruct (threads s !! tid) as [r|]; [|done].
  pose proof (reader_step_rcu (mem s) r) as Hrcu.
  pose proof (reader_step_value (mem s) r) as Hval.
  by destruct (reader_step BUFSZ (mem s) r).
Qed.

(** An event of the publisher leaves the counts and the readers. *)
Lemma publisher_event_frame s e :
  is_publisher_event e = true ->
  (forall q, refCount_at q (heap (mem (system_step BUFSZ s e)))
             = refCount_at q (heap (mem s)))
  /\ threads (system_step BUFSZ s e) = threads s.
Proof.
  destruct e as [tid| |v|]; [done| | |]; intros _; simpl.
  - pose proof (initUpdate_step_heap BUFSZ (mem s)
                  match pub s with InitReturned _ => PubIdle | pc => pc end)
      as Hheap.
    destruct (initUpdate_step BUFSZ (mem s) _). simpl in *. by rewrite Hheap.
  - destruct (pub s); try done. simpl. split; [|done].
    intros q. apply assign_at_refCount.
  - by destruct (pub s).
Qed.

(** The array is only ever permuted. *)
Lemma system_step_ring s e :
  wf BUFSZ (rcu (mem s)) ->
  first_in_range s ->
  m_data (rcu (mem (system_step BUFSZ s e))) ≡ₚ m_data (rcu (mem s))
  /\ first_in_range (system_step BUFSZ s e).
Proof.
  intros Hwf Hfirst. unfold first_in_range in *.
  destruct e as [tid| |v|].
  - destruct (reader_event_frame s tid) as (Hrcu & _ & Hpub).
    by rewrite Hrcu, Hpub.
  - simpl. destruct (pub s) as [|n|first n|p] eqn:Hpub; simpl.
    + done.
    + destruct (slot_refCount (mem s) (slot BUFSZ n) =? 0); simpl; [done|].
      split; [done|]. by apply wf_slot_lt.
    + destruct (slot_refCount (mem s) (slot BUFSZ n) =? 0); simpl; [|done].
      split; [|done]. apply swap_slots_perm; [done|]. by apply wf_slot_lt.
    + done.
  - simpl. destruct (pub s) eqn:Hpub; simpl; by rewrite ?Hpub.
  - simpl. destruct (pub s) eqn:Hpub; simpl; by rewrite ?Hpub.
Qed.

Lemma wf_perm (r1 r2 : RcuDataNoWait) :
  m_data r2 ≡ₚ m_data r1 -> wf BUFSZ r1 -> wf BUFSZ r2.
Proof.
  intros Hperm (Hsize & Hassert & Hlen). repeat split; [apply Hsize..|done|].
  by rewrite (Permutation_length Hperm).
Qed.

Lemma system_run_ring es s :
  wf BUFSZ (rcu (mem s)) ->
  first_in_range s ->
  m_data (rcu (mem (system_run BUFSZ es s))) ≡ₚ m_data (rcu (mem s))
  /\ first_in_range (system_run BUFSZ es s).
Proof.
  revert s. induction es as [|e es IH]; intros s Hwf Hfirst; [done|].
  rewrite system_run_cons.
  destruct (system_step_ring s e Hwf Hfirst) as [Hperm Hfirst'].
  destruct (IH (system_step BUFSZ s e)) as [Hperm' Hfirst''];
    [by eapply wf_perm|done|].
  split; [|done]. by rewrite Hperm'.
Qed.

End Interleavings.

(** X12: whatever the readers and the publisher do, in whatever order, the
    array of a well-formed ring is only permuted: it keeps its length, no
    slot is lost or duplicated, and distinct slots stay distinct. *)
Theorem ring_is_only_permuted
    {V : Type} (BUFSZ : Z) (s : System V) (es : list (event V)) :
  wf BUFSZ (rcu (mem s)) ->
  pub s = PubIdle ->
  m_data (rcu (mem (system_run BUFSZ es s))) ≡ₚ m_data (rcu (mem s))
  /\ wf BUFSZ (rcu (mem (system_run BUFSZ es s)))
  /\ (NoDup (m_data (rcu (mem s))) ->
      NoDup (m_data (rcu (mem (system_run BUFSZ es s))))).
Proof.
  intros Hwf Hpub.
  destruct (system_run_ring BUFSZ es s Hwf) as [Hperm _].
  { unfold first_in_range. by rewrite Hpub. }
  split; [done|]. split; [by eapply wf_perm|].
  intros Hnodup. by rewrite Hperm.
Qed.

Lemma ring_is_only_permuted_witness :
  m_data (rcu (mem (system_run 4 late_handle_schedule
       {| mem := example_memory []%nat [10; 11; 12; 13]%nat 0;
          pub := PubIdle; threads := replicate 2 ReadEntry |})))
  ≡ₚ [10; 11; 12; 13]%nat.
Proof.
  destruct (ring_is_only_permuted 4
       {| mem := example_memory []%nat [10; 11; 12; 13]%nat 0;
          pub := PubIdle; threads := replicate 2 ReadEntry |}
       late_handle_schedule) as [Hperm _].
  - repeat split; by vm_compute.
  - reflexivity.
  - exact Hperm.
Defined.

(** X13: readers write nothing but counts, and the publisher never writes a
    count.  A schedule made of reader actions only leaves the ring (array
    and head), every payload and the publisher as they were; a schedule
    made of publisher events only leaves every count and every reader as
    they were. *)
Theorem readers_and_publisher_write_disjoint_state
    {V : Type} (BUFSZ : Z) (s : System V) (es : list (event V)) :
  (Forall (fun e => is_publisher_event e = false) es ->
     rcu (mem (system_run BUFSZ es s)) = rcu (mem s)
     /\ (forall q, value (heap (mem (system_run BUFSZ es s)) q)
                   = value (heap (mem s) q))
     /\ pub (system_run BUFSZ es s) = pub s)
  /\ (Forall (fun e => is_publisher_event e = true) es ->
        (forall q, refCount_at q (heap (mem (system_run BUFSZ es s)))
                   = refCount_at q (heap (mem s)))
        /\ threads (system_run BUFSZ es s) = threads s).
Proof.
  split.
  - intros Hall. revert s. induction Hall as [|e es He _ IH]; intros s; [done|].
    rewrite system_run_cons. destruct e as [tid| | |]; try done.
    destruct (reader_event_frame BUFSZ s tid) as (Hrcu & Hval & Hpub).
    destruct (IH (system_step BUFSZ s (EvReader tid))) as (Hrcu' & Hval' & Hpub').
    split; [congruence|]. split; [|congruence].
    intros q. by rewrite Hval', Hval.
  - intros Hall. revert s. induction Hall as [|e es He _ IH]; intros s; [done|].
    rewrite system_run_cons.
    destruct (publisher_event_frame BUFSZ s e He) as (Hcount & Hthreads).
    destruct (IH (system_step BUFSZ s e)) as (Hcount' & Hthreads').
    split; [|congruence]. intros q. by rewrite Hcount', Hcount.
Qed.

Lemma readers_and_publisher_write_disjoint_state_witness :
  rcu (mem (system_run 4 [EvReader 0; EvReader 0; EvReader 0; EvReader 1]
       {| mem := example_memory []%nat [10; 11; 12; 13]%nat 0;
          pub := PubIdle; threads := replicate 2 ReadEntry |}))
  = {| m_data := [10; 11; 12; 13]%nat; m_head := 0 |}.
Proof.
  destruct (readers_and_publisher_write_disjoint_state 4
       {| mem := example_memory []%nat [10; 11; 12; 13]%nat 0;
          pub := PubIdle; threads := replicate 2 ReadEntry |}
       [EvReader 0; EvReader 0; EvReader 0; EvReader 1]) as [Hreaders _].
  destruct Hreaders as [Hrcu _]; [by repeat constructor|exact Hrcu].
Defined.

(** ** read(): one more round per commit at most *)

Section Retries.

Context {V : Type}.
Variable BUFSZ : Z.
Variable tid : nat.

Implicit Types (m : Memory V) (r : reader) (s : System V) (e : event V)
  (es : list (event V)).

Local Abbreviation todo := (actions_left tid).
Local Abbreviation finished := (read_finished tid).

Lemma remaining_zero head r : remaining head r = 0%nat <-> has_returned r = true.
Proof. destruct r; simpl; repeat case_match; split; (done || lia). Qed.

Lemma reader_step_remaining m r :
  remaining (m_head (rcu m)) (reader_step BUFSZ m r).2
  = pred (remaining (m_head (rcu m)) r).
Proof.
  destruct r as [|c u|c u raw|c u raw|o u|u|]; simpl.
  - by rewrite Z.eqb_refl.
  - by destruct (c =? m_head (rcu m)).
  - by destruct (c =? m_head (rcu m)).
  - by destruct (c =? m_head (rcu m)).
  - rewrite (Z.eqb_sym o). destruct (m_head (rcu m) =? o); simpl; [done|].
    by rewrite Z.eqb_refl.
  - done.
  - done.
Qed.

Lemma remaining_other_head head head' r :
  (remaining head' r <= remaining head r + 4)%nat.
Proof. destruct r; simpl; repeat case_match; lia. Qed.

Lemma reader_step_returned m r :
  has_returned r = true -> has_returned (reader_step BUFSZ m r).2 = true.
Proof. by destruct r. Qed.

Lemma system_step_todo s e :
  (todo (system_step BUFSZ s e) + (if is_reader_event tid e then 1 else 0)
   <= todo s + (if is_commit e then 4 else 0))%nat
  \/ finished s.
Proof.
  unfold actions_left, read_finished. destruct e as [t| |v|]; simpl.
  - destruct (Nat.eqb_spec t tid) as [->|Hne].
    + destruct (threads s !! tid) as [r|] eqn:Hr; [|by right].
      pose proof (reader_step_remaining (mem s) r) as Hstep.
      pose proof (reader_step_rcu BUFSZ (mem s) r) as Hrcu.
      destruct (reader_step BUFSZ (mem s) r) as [m' r']. simpl in *.
      rewrite list_lookup_insert_eq by (by eapply lookup_lt_Some).
      rewrite Hrcu, Hstep.
      destruct (remaining (m_head (rcu (mem s))) r) as [|k] eqn:Hk.
      * right. by eapply remaining_zero.
      * left. simpl. lia.
    + left. destruct (threads s !! t) as [r|] eqn:Hr; [|lia].
      pose proof (reader_step_rcu BUFSZ (mem s) r) as Hrcu.
      destruct (reader_step BUFSZ (mem s) r) as [m' r']. simpl in *.
      rewrite list_lookup_insert_ne by done. rewrite Hrcu. lia.
  - left.
    assert (Hhead : forall pc,
              m_head (rcu (initUpdate_step BUFSZ (mem s) pc).1)
              = m_head (rcu (mem s))).
    { intros pc. destruct pc; simpl; repeat case_match; done. }
    specialize (Hhead match pub s with InitReturned _ => PubIdle | pc => pc end).
    destruct (initUpdate_step BUFSZ (mem s) _) as [m' pc']. simpl in *.
    rewrite Hhead. lia.
  - left. destruct (pub s); simpl; lia.
  - left. destruct (pub s); simpl; try lia;
      (destruct (threads s !! tid) as [r|]; [|lia]);
      pose proof (remaining_other_head (m_head (rcu (mem s)))
                    (wrap_long (m_head (rcu (mem s)) + 1)) r); lia.
Qed.

Lemma system_step_finished s e : finished s -> finished (system_step BUFSZ s e).
Proof.
  unfold read_finished. destruct e as [t| |v|]; simpl.
  - destruct (threads s !! t) as [r|] eqn:Hr; [|done].
    destruct (reader_step BUFSZ (mem s) r) as [m' r'] eqn:Hstep. simpl.
    destruct (decide (t = tid)) as [->|Hne].
    + rewrite Hr, list_lookup_insert_eq by (by eapply lookup_lt_Some).
      intros Hret. pose proof (reader_step_returned (mem s) r Hret) as Hret'.
      by rewrite Hstep in Hret'.
    + by rewrite list_lookup_insert_ne.
  - by destruct (initUpdate_step BUFSZ (mem s) _).
  - by destruct (pub s).
  - by destruct (pub s).
Qed.

Lemma system_run_finished es s : finished s -> finished (system_run BUFSZ es s).
Proof.
  revert s. induction es as [|e es IH]; intros s Hfin; [done|].
  rewrite system_run_cons. by apply IH, system_step_finished.
Qed.

Lemma system_run_todo es s :
  (todo (system_run BUFSZ es s) + reader_actions tid es
   <= todo s + 4 * commits es)%nat
  \/ finished (system_run BUFSZ es s).
Proof.
  revert s. induction es as [|e es IH]; intros s.
  - left. unfold reader_actions, commits. simpl. lia.
  - rewrite system_run_cons.
    destruct (system_step_todo s e) as [Hstep|Hfin].
    + destruct (IH (system_step BUFSZ s e)) as [Hrun|Hfin]; [|by right].
      left. unfold reader_actions, commits in *. simpl.
      destruct (is_reader_event tid e), (is_commit e); simpl; lia.
    + right. rewrite <- system_run_cons. by apply system_run_finished.
Qed.

Lemma system_run_length es s :
  length (threads (system_run BUFSZ es s)) = length (threads s).
Proof.
  revert s. induction es as [|e es IH]; intros s; [done|].
  by rewrite system_run_cons, IH, system_step_length.
Qed.

Lemma retries_bounded es s :
  threads s !! tid = Some ReadEntry ->
  (5 + 4 * commits es <= reader_actions tid es)%nat ->
  exists r, threads (system_run BUFSZ es s) !! tid = Some r
            /\ has_returned r = true.
Proof.
  intros Hentry Hmany.
  assert (is_Some (threads (system_run BUFSZ es s) !! tid)) as [r Hr].
  { apply lookup_lt_is_Some. rewrite system_run_length.
    by eapply lookup_lt_Some. }
  exists r. split; [done|].
  destruct (system_run_todo es s) as [Hle|Hfin].
  - unfold actions_left in Hle. rewrite Hr, Hentry in Hle. simpl in Hle.
    eapply remaining_zero. 
    instantiate (1 := m_head (rcu (mem (system_run BUFSZ es s)))). lia.
  - unfold read_finished in Hfin. by rewrite Hr in Hfin.
Qed.

End Retries.

(** X14: [read()] goes round its loop at most once more for every commit
    that overtakes it.  In any interleaving, a thread that starts a
    [read()] and then performs at least [5 + 4 k] atomic actions, where [k]
    is the number of [commitUpdate()] calls in the schedule, has returned
    from [read()]; nothing the other readers or [initUpdate()] do delays
    it. *)
Theorem read_retries_once_per_commit_at_most
    {V : Type} (BUFSZ : Z) (tid : nat) (s : System V) (es : list (event V)) :
  threads s !! tid = Some ReadEntry ->
  (5 + 4 * commits es <= reader_actions tid es)%nat ->
  exists r, threads (system_run BUFSZ es s) !! tid = Some r
            /\ has_returned r = true.
Proof. apply retries_bounded. Qed.

Lemma read_retries_once_per_commit_at_most_witness :
  exists r,
    threads (system_run 4
      ([EvReader 0; EvReader 0; EvReader 0; EvInitUpdate; EvInitUpdate;
        EvAssign 7; EvCommit]
       ++ [EvReader 0; EvReader 0; EvReader 0; EvReader 0; EvReader 0;
           EvReader 0])
      {| mem := example_memory []%nat [10; 11; 12; 13]%nat 0;
         pub := PubIdle; threads := replicate 2 ReadEntry |}) !! 0%nat = Some r
    /\ has_returned r = true.
Proof.
  apply (read_retries_once_per_commit_at_most 4 0).
  - reflexivity.
  - vm_compute. lia.
Defined.

(** ** An open handle keeps its slot *)

Section OpenHandles.

Context {V : Type}.
Variable BUFSZ : Z.

Implicit Types (m : Memory V) (r : reader) (s : System V) (e : event V)
  (es : list (event V)) (ts : list reader).

Lemma references_lookup_le p ts (i : nat) r :
  ts !! i = Some r -> (references p [r] <= references p ts)%nat.
Proof.
  intros Hi. rewrite <- (take_drop_middle ts i r Hi).
  rewrite references_app, (references_cons p r (drop (S i) ts)). lia.
Qed.

Lemma reader_step_nonnull m r :
  handle_nonnull r -> handle_nonnull (reader_step BUFSZ m r).2.
Proof.
  destruct r as [|c u|c u raw|c u raw|o [p|]|[p|]|]; simpl; try done.
  by case_match.
Qed.

Lemma system_step_nonnull s e :
  Forall handle_nonnull (threads s) ->
  Forall handle_nonnull (threads (system_step BUFSZ s e)).
Proof.
  intros Hall. destruct e as [tid| |v|]; simpl.
  - destruct (threads s !! tid) as [r|] eqn:Hr; [|done].
    pose proof (reader_step_nonnull (mem s) r) as Hstep.
    destruct (reader_step BUFSZ (mem s) r) as [m' r']. simpl in *.
    apply Forall_insert; [done|]. apply Hstep.
    by eapply Forall_lookup_1.
  - by destruct (initUpdate_step BUFSZ (mem s) _).
  - by destruct (pub s).
  - by destruct (pub s).
Qed.

Lemma system_run_nonnull es s :
  Forall handle_nonnull (threads s) ->
  Forall handle_nonnull (threads (system_run BUFSZ es s)).
Proof.
  revert s. induction es as [|e es IH]; intros s Hall; [done|].
  rewrite system_run_cons. by apply IH, system_step_nonnull.
Qed.

Lemma replicate_entry_nonnull (N : nat) :
  Forall handle_nonnull (replicate N ReadEntry).
Proof. by apply Forall_replicate. Qed.

Lemma replicate_entry_references p (N : nat) :
  references p (replicate N ReadEntry) = 0%nat.
Proof.
  induction N as [|n IH]; [done|]. simpl. by rewrite references_cons, IH.
Qed.

End OpenHandles.

(** X15: the handle that [read()] returns is never null, and while it is
    open the count of its slot is at least one, in every interleaving with
    other readers and the publisher.  Hence each time the scan of
    [initUpdate()] tests that slot it moves on to the next one. *)
Theorem open_handle_is_stepped_over
    {V : Type} (BUFSZ : Z) (N : nat) (m : Memory V) (pc : publisher)
    (es : list (event V)) (tid : nat) (u : option ptr) :
  2 * Z.of_nat N <= LONG_MAX ->
  (forall p, refCount_at p (heap m) = 0) ->
  let final := system_run BUFSZ es
                 {| mem := m; pub := pc; threads := replicate N ReadEntry |} in
  threads final !! tid = Some (ReadReturned u) ->
  exists p,
    u = Some p
    /\ 1 <= refCount_at p (heap (mem final))
    /\ forall first pos,
         m_data (rcu (mem final)) !!! slot BUFSZ pos = p ->
         initUpdate_step BUFSZ (mem final) (InitScan first pos)
         = (mem final, InitScan first (wrap_long (pos + 1)))
         /\ initUpdate_step BUFSZ (mem final) (InitFirst pos)
            = (mem final, InitScan (slot BUFSZ pos) (wrap_long (pos + 1))).
Proof.
  intros Hbound Hzero final Hheld.
  set (start := {| mem := m; pub := pc; threads := replicate N ReadEntry |}) in *.
  assert (Hnonnull : handle_nonnull (ReadReturned u)).
  { eapply Forall_lookup_1; [|exact Hheld].
    apply system_run_nonnull. apply replicate_entry_nonnull. }
  destruct u as [p|]; [|done]. exists p. split; [done|].
  destruct (system_run_accounted BUFSZ es start) as [Hacc _].
  { simpl. by rewrite length_replicate. }
  { intros q. simpl. by rewrite Hzero, replicate_entry_references. }
  fold final in Hacc.
  assert (Hcount : 1 <= refCount_at p (heap (mem final))).
  { rewrite Hacc.
    pose proof (references_lookup_le p _ _ _ Hheld) as Hle.
    rewrite references_one in Hle. simpl in Hle.
    rewrite Nat.eqb_refl in Hle. simpl in Hle. lia. }
  split; [done|]. intros first pos Hslot. simpl. unfold slot_refCount.
  rewrite Hslot.
  destruct (Z.eqb_spec (refCount_at p (heap (mem final))) 0) as [H0|_]; [lia|].
  done.
Qed.

Lemma open_handle_is_stepped_over_witness :
  exists p,
    Some 11%nat = Some p
    /\ 1 <= refCount_at p (heap (mem (system_run 4
              (firstn 19 example_schedule)
              {| mem := example_memory []%nat [10; 11; 12; 13]%nat 0;
                 pub := PubIdle; threads := replicate 2 ReadEntry |}))).
Proof.
  destruct (open_handle_is_stepped_over 4 2
              (example_memory []%nat [10; 11; 12; 13]%nat 0) PubIdle
              (firstn 19 example_schedule) 0 (Some 11%nat))
    as (p & Hp & Hcount & _).
  - by vm_compute.
  - intros p. reflexivity.
  - by vm_compute.
  - exists p. split; [exact Hp|exact Hcount].
Defined.

(** ** A held slot through a burst of updates *)

Lemma update_cycle_keeps_referenced
    {V : Type} (BUFSZ : Z) (m : Memory V) (fuel : nat) (mutate : V -> V)
    (m' : Memory V) (q : ptr) :
  wf BUFSZ (rcu m) ->
  refCount_at q (heap m) <> 0 ->
  update_cycle BUFSZ fuel mutate m = Some m' ->
  heap m' q = heap m q.
Proof.
  intros Hwf Hq Hcycle. unfold update_cycle in Hcycle.
  destruct (initUpdate BUFSZ fuel m) as [[p m1]|] eqn:Hinit; [|done].
  injection Hcycle as <-.
  destruct (initUpdate_effect BUFSZ m Hwf fuel p m1 Hinit)
    as (_ & _ & _ & Hheap & _).
  destruct (initUpdate_returns_found BUFSZ m Hwf fuel p m1 Hinit)
    as (d & _ & Hfree & _ & Hp).
  assert (q <> p) as Hne by (intros ->; subst p; by apply Hq).
  simpl. rewrite assign_at_other by done. by rewrite Hheap.
Qed.

(** X16: a slot whose count is not zero goes through any number of update
    cycles untouched, payload and count: a reader that holds a handle
    across a burst of updates keeps seeing the value it got, however the
    ring is sized. *)
Theorem held_slot_survives_update_cycles
    {V : Type} (BUFSZ : Z) (m : Memory V) (fuel : nat)
    (mutations : list (V -> V)) (m' : Memory V) (q : ptr) :
  wf BUFSZ (rcu m) ->
  refCount_at q (heap m) <> 0 ->
  update_cycles BUFSZ fuel mutations m = Some m' ->
  heap m' q = heap m q.
Proof.
  intros Hwf Hq. revert m Hwf Hq.
  induction mutations as [|f rest IH]; intros m Hwf Hq Hrun.
  - by injection Hrun as <-.
  - cbn [update_cycles] in Hrun.
    destruct (update_cycle BUFSZ fuel f m) as [m1|] eqn:Hcycle; [|done].
    destruct (update_cycle_publishes BUFSZ fuel f m m1 Hwf Hcycle)
      as (Hwf1 & _ & Hcount & _).
    pose proof (update_cycle_keeps_referenced BUFSZ m fuel f m1 q Hwf Hq Hcycle)
      as Hsame.
    rewrite <- Hsame. apply IH; [done| |done]. by rewrite Hcount.
Qed.

Lemma held_slot_survives_update_cycles_witness :
  exists m',
    update_cycles 4 6 [Z.add 1; Z.add 2; Z.add 3; Z.add 4; Z.add 5; Z.add 6]
      (example_memory [10]%nat [10; 11; 12; 13]%nat 0) = Some m'
    /\ heap m' 10%nat = heap (example_memory [10]%nat [10; 11; 12; 13]%nat 0) 10%nat.
Proof.
  destruct (update_cycles 4 6 [Z.add 1; Z.add 2; Z.add 3; Z.add 4; Z.add 5; Z.add 6]
              (example_memory [10]%nat [10; 11; 12; 13]%nat 0))
    as [m'|] eqn:Hrun; [|by vm_compute in Hrun].
  exists m'. split; [reflexivity|].
  apply (held_slot_survives_update_cycles 4
           (example_memory [10]%nat [10; 11; 12; 13]%nat 0) 6
           [Z.add 1; Z.add 2; Z.add 3; Z.add 4; Z.add 5; Z.add 6] m' 10%nat).
  - repeat split; by vm_compute.
  - by vm_compute.
  - exact Hrun.
Defined.

(** ** Handles point into the ring *)

Section HandlesPointIntoRing.

Context {V : Type}.
Variable BUFSZ : Z.

Implicit Types (m : Memory V) (r : reader) (s : System V) (e : event V)
  (es : list (event V)) (data : list ptr).

Lemma points_into_perm data data' r :
  data' ≡ₚ data -> points_into data r -> points_into data' r.
Proof.
  intros Hperm. destruct r; simpl; try done;
    try (intros Hu p Hp; rewrite Hperm; by apply Hu);
    (intros [Hraw Hu]; split; [by rewrite Hperm|];
     intros p Hp; rewrite Hperm; by apply Hu).
Qed.

Lemma reader_step_points_into m r :
  wf BUFSZ (rcu m) ->
  points_into (m_data (rcu m)) r ->
  points_into (m_data (rcu m)) (reader_step BUFSZ m r).2.
Proof.
  intros Hwf. destruct r as [|c u|c u raw|c u raw|o u|u|]; simpl; try done.
  - intros Hu. split; [|done].
    apply list_elem_of_lookup_total_2. by apply wf_slot_lt.
  - intros [Hraw _] p [= <-]. done.
  - intros Hu. by case_match.
Qed.

Lemma system_step_points_into s e :
  wf BUFSZ (rcu (mem s)) ->
  first_in_range s ->
  Forall (points_into (m_data (rcu (mem s)))) (threads s) ->
  Forall (points_into (m_data (rcu (mem (system_step BUFSZ s e)))))
         (threads (system_step BUFSZ s e)).
Proof.
  intros Hwf Hfirst Hall.
  destruct (system_step_ring BUFSZ s e Hwf Hfirst) as [Hperm _].
  assert (Hmove : forall ts,
            Forall (points_into (m_data (rcu (mem s)))) ts ->
            Forall (points_into (m_data (rcu (mem (system_step BUFSZ s e))))) ts).
  { intros ts. apply Forall_impl. intros r. by apply points_into_perm. }
  destruct e as [tid| |v|].
  - apply Hmove. simpl.
    destruct (threads s !! tid) as [r|] eqn:Hr; [|done].
    pose proof (reader_step_points_into (mem s) r Hwf) as Hstep.
    destruct (reader_step BUFSZ (mem s) r) as [m' r']. simpl in *.
    apply Forall_insert; [done|]. apply Hstep. by eapply Forall_lookup_1.
  - assert (threads (system_step BUFSZ s EvInitUpdate) = threads s) as ->.
    { simpl. by destruct (initUpdate_step BUFSZ (mem s) _). }
    by apply Hmove.
  - assert (threads (system_step BUFSZ s (EvAssign v)) = threads s) as ->.
    { simpl. by destruct (pub s). }
    by apply Hmove.
  - assert (threads (system_step BUFSZ s EvCommit) = threads s) as ->.
    { simpl. by destruct (pub s). }
    by apply Hmove.
Qed.

Lemma system_run_points_into es s :
  wf BUFSZ (rcu (mem s)) ->
  first_in_range s ->
  Forall (points_into (m_data (rcu (mem s)))) (threads s) ->
  Forall (points_into (m_data (rcu (mem (system_run BUFSZ es s)))))
         (threads (system_run BUFSZ es s)).
Proof.
  revert s. induction es as [|e es IH]; intros s Hwf Hfirst Hall; [done|].
  rewrite system_run_cons.
  destruct (system_step_ring BUFSZ s e Hwf Hfirst) as [Hperm Hfirst'].
  apply IH; [by eapply wf_perm|done|by apply system_step_points_into].
Qed.

End HandlesPointIntoRing.

(** X17: in every interleaving, the handle that [read()] returns points to
    one of the slots the ring was constructed with; no thread ever takes or
    gives back a reference on anything else. *)
Theorem handles_point_into_the_ring
    {V : Type} (BUFSZ : Z) (N : nat) (m : Memory V) (es : list (event V))
    (tid : nat) (p : ptr) :
  wf BUFSZ (rcu m) ->
  let final := system_run BUFSZ es
                 {| mem := m; pub := PubIdle; threads := replicate N ReadEntry |} in
  threads final !! tid = Some (ReadReturned (Some p)) ->
  p ∈ m_data (rcu m) /\ p ∈ m_data (rcu (mem final)).
Proof.
  intros Hwf final Hheld.
  set (start := {| mem := m; pub := PubIdle; threads := replicate N ReadEntry |}) in *.
  assert (Hin : p ∈ m_data (rcu (mem final))).
  { assert (points_into (m_data (rcu (mem final))) (ReadReturned (Some p))) as Hp.
    { eapply Forall_lookup_1; [|exact Hheld].
      apply system_run_points_into; [done..|]. by apply Forall_replicate. }
    by apply Hp. }
  split; [|done].
  destruct (system_run_ring BUFSZ es start Hwf) as [Hperm _]; [done|].
  fold final in Hperm. change (mem start) with m in Hperm.
  by rewrite <- Hperm.
Qed.

Lemma handles_point_into_the_ring_witness :
  11%nat ∈ [10; 11; 12; 13]%nat.
Proof.
  destruct (handles_point_into_the_ring 4 2
              (example_memory []%nat [10; 11; 12; 13]%nat 0)
              (firstn 19 example_schedule) 0 11%nat) as [Hin _].
  - repeat split; by vm_compute.
  - by vm_compute.
  - exact Hin.
Defined.

(** ** The slot selected by initUpdate and the handles that are open *)



